(** * Page enhancement scripts of [assets/js/main.js]

    A shallow embedding of the four widgets of [main.js] (theme manager,
    reading progress bar, lazy image loader, code block copy button) and the
    properties of them that the specification states.

    Conventions.  The DOM and the browser facilities a widget touches are an
    explicit state record; a method is a function on that state, an event
    handler a function from the event and the state to the next state.  A
    handler that can raise returns a [completion].  JavaScript strings are
    [string], [null]/[undefined] is [None], numbers are IEEE 754 binary64
    values, that is, Rocq's primitive [float]. *)

From Stdlib Require Import ZArith Lia Floats.
From stdpp Require Import base option list gmap sets strings.

Open Scope string_scope.

(** ** The fragments of JavaScript the widgets rely on *)
Module Js.

(** [ToBoolean] on a value that is a string or [null]: only [null] and the
    empty string are falsy. *)
Definition truthy (v : option string) : bool :=
  match v with
  | None => false
  | Some s => negb (bool_decide (s = ""))
  end.

(** [v || d] where [d] is a string. *)
Definition or_else (v : option string) (d : string) : string :=
  match v with
  | None => d
  | Some s => if bool_decide (s = "") then d else s
  end.

(** What a statement can do: finish, or raise. *)
Inductive exn := TypeError (msg : string).

Inductive completion (A : Type) :=
| Normal (a : A)
| Throw (e : exn).
Global Arguments Normal {A} a.
Global Arguments Throw {A} e.

Global Instance completion_ret : MRet completion := λ A a, Normal a.

Global Instance completion_bind : MBind completion := λ A B k c,
  match c with
  | Normal a => k a
  | Throw e => Throw e
  end.

End Js.

(** ** class ThemeManager *)
Module ThemeManager.

Definition SUN : string := "☀️".
Definition MOON : string := "🌙".

(** What the theme manager reads and writes:
    - [data_theme]: the [data-theme] attribute of [document.documentElement];
    - [stored_theme]: [localStorage.getItem('theme')];
    - [toggle_el]: the element [#themeToggle], when there is one, with the
      [textContent] of its [.theme-icon] child, when there is one;
    - [prefers_dark]: [matchMedia('(prefers-color-scheme: dark)').matches]. *)
Record page := Page {
  data_theme : option string;
  stored_theme : option string;
  toggle_el : option (option string);
  prefers_dark : bool
}.

Global Instance page_eq_dec : EqDecision page.
Proof. solve_decision. Defined.

(** [this.themeIcon = this.themeToggle?.querySelector('.theme-icon')] *)
Definition themeIcon (st : page) : option string :=
  match toggle_el st with
  | Some icon => icon
  | None => None
  end.

Definition scheme (dark : bool) : string :=
  if dark then "dark" else "light".

Definition getSystemPreference (st : page) : string :=
  scheme (prefers_dark st).

Definition getSavedTheme (st : page) : option string :=
  stored_theme st.

Definition glyph (theme : string) : string :=
  if bool_decide (theme = "dark") then SUN else MOON.

Definition updateIcon (theme : string) (st : page) : page :=
  match toggle_el st with
  | Some (Some _) =>
      Page (data_theme st) (stored_theme st) (Some (Some (glyph theme)))
           (prefers_dark st)
  | _ => st
  end.

Definition setTheme (theme : string) (st : page) : page :=
  let st1 := Page (Some theme) (stored_theme st) (toggle_el st)
                  (prefers_dark st) in
  let st2 := Page (data_theme st1) (Some theme) (toggle_el st1)
                  (prefers_dark st1) in
  updateIcon theme st2.

Definition loadTheme (st : page) : page :=
  let savedTheme := getSavedTheme st in
  let systemPreference := getSystemPreference st in
  let theme := Js.or_else savedTheme systemPreference in
  updateIcon theme (setTheme theme st).

Definition toggleTheme (st : page) : page :=
  let currentTheme := Js.or_else (data_theme st) "light" in
  let newTheme :=
    if bool_decide (currentTheme = "light") then "dark" else "light" in
  setTheme newTheme st.

(** The two listeners registered by [bindEvents].  The click listener is
    registered only when [#themeToggle] exists.  A change of the system
    colour scheme first changes what [matchMedia] reports and then runs
    the listener with [e.matches]. *)
Inductive event :=
| ToggleClick
| SchemeChange (matches : bool).

Definition onSchemeChange (matches : bool) (st : page) : page :=
  if negb (Js.truthy (getSavedTheme st))
  then setTheme (scheme matches) st
  else st.

Definition dispatch (st : page) (e : event) : page :=
  match e with
  | ToggleClick =>
      match toggle_el st with
      | Some _ => toggleTheme st
      | None => st
      end
  | SchemeChange matches =>
      onSchemeChange matches
        (Page (data_theme st) (stored_theme st) (toggle_el st) matches)
  end.

(** [new ThemeManager()]: [init] is [loadTheme] followed by [bindEvents];
    from then on the page reacts to events through [dispatch]. *)
Definition construct (st : page) : page := loadTheme st.

Definition run (st : page) (es : list event) : page :=
  foldl dispatch st es.

(** A first visit: nothing stored, no theme attribute in the markup. *)
Definition first_visit (toggle : option (option string)) (dark : bool)
  : page :=
  Page None None toggle dark.

(** Storage and icon agree with theme [t]. *)
Definition synced (t : string) (st : page) : Prop :=
  data_theme st = Some t ∧ stored_theme st = Some t ∧
  (themeIcon st = None ∨ themeIcon st = Some (glyph t)).

(** The other of the two themes, as [toggleTheme] picks it. *)
Definition opposite (t : string) : string :=
  if bool_decide (t = "light") then "dark" else "light".

(** A reload: the markup comes back with the attribute [a] it was written
    with, the system may prefer another scheme, storage is what the last
    visit left. *)
Definition reload (a : option string) (dark : bool) (st : page) : page :=
  construct (Page a (stored_theme st) (toggle_el st) dark).

End ThemeManager.

(** ** class ReadingProgress *)
Module ReadingProgress.

(** *** Numbers

    [ToBoolean] of a number is false for [+0], [-0] and [NaN]
    ([is_zero] holds of both zeros). *)
Definition number_truthy (x : float) : bool :=
  negb (is_zero x || is_nan x).

(** [a || b] on numbers. *)
Definition number_or (a b : float) : float :=
  if number_truthy a then a else b.

Definition is_pos_zero (x : float) : bool := is_zero x && negb (get_sign x).
Definition is_neg_zero (x : float) : bool := is_zero x && get_sign x.

(** One round of the loop of [Math.max]: [+0] beats [-0], otherwise the
    strictly larger number is kept. *)
Definition max_step (highest number : float) : float :=
  if is_pos_zero number && is_neg_zero highest then number
  else if (highest <? number)%float then number
  else highest.

Definition min_step (lowest number : float) : float :=
  if is_neg_zero number && is_pos_zero lowest then number
  else if (number <? lowest)%float then number
  else lowest.

(** [Math.max(a, b)] and [Math.min(a, b)] as ECMAScript defines them: [NaN]
    as soon as an argument is [NaN], otherwise the loop started from
    [-Infinity] (from [+Infinity] for [Math.min]). *)
Definition Math_max (a b : float) : float :=
  if is_nan a || is_nan b then nan
  else max_step (max_step neg_infinity a) b.

Definition Math_min (a b : float) : float :=
  if is_nan a || is_nan b then nan
  else min_step (min_step infinity a) b.

(** *** The widget *)

(** The expression of lines 104-106. *)
Definition scrollPercent
  (contentHeight contentTop scrollTop windowHeight : float) : float :=
  Math_min 100 (Math_max 0
    ((scrollTop - contentTop + windowHeight) / contentHeight * 100)%float).

(** [style.width] of the bar: the string [x + '%'] is kept as the number it
    is built from. *)
Inductive css_width := Percent (x : float).

(** The layout a scroll event finds: [offsetHeight] and [offsetTop] of
    [.post-content], when the element is there, [window.pageYOffset],
    [document.documentElement.scrollTop] and [window.innerHeight]. *)
Record layout := Layout {
  post_content : option (float * float);
  pageYOffset : float;
  docScrollTop : float;
  innerHeight : float
}.

(** [this.progressBar] is [null] until [createProgressBar] runs. *)
Definition createProgressBar : option css_width := Some (Percent 0).

(** [init]: bar and scroll listener exist only when [.post-content] does. *)
Definition init (l : layout) : option css_width :=
  match post_content l with
  | Some _ => createProgressBar
  | None => None
  end.

(** The scroll listener registered by [bindScrollEvent]. *)
Definition onScroll (l : layout) (progressBar : option css_width)
  : option css_width :=
  match progressBar with
  | None => None
  | Some bar =>
      match post_content l with
      | None => Some bar
      | Some (contentHeight, contentTop) =>
          let scrollTop := number_or (pageYOffset l) (docScrollTop l) in
          let windowHeight := innerHeight l in
          Some (Percent
                  (scrollPercent contentHeight contentTop scrollTop
                                 windowHeight))
      end
  end.

(** [lo <= x <= hi] with the comparisons of binary64 (false on [NaN]). *)
Definition within (lo hi x : float) : bool :=
  (lo <=? x)%float && (x <=? hi)%float.

(** The scroll events of a visit, each with the layout it finds. *)
Definition scrolls (progressBar : option css_width) (ls : list layout)
  : option css_width :=
  foldl (λ bar l, onScroll l bar) progressBar ls.

End ReadingProgress.

(** ** class LazyLoader *)
Module LazyLoader.

(** The closure that [loadImage] stores in [img.onload]. *)
Inductive load_handler := ClearBlur.

Global Instance load_handler_eq_dec : EqDecision load_handler.
Proof. solve_decision. Defined.

(** An [<img>]: its content attributes ([img.src] reflects ["src"]), its
    [onload] handler and the two inline style properties the handler sets. *)
Record img := Img {
  attrs : gmap string string;
  onload : option load_handler;
  style_opacity : option string;
  style_filter : option string
}.

Global Instance img_eq_dec : EqDecision img.
Proof. solve_decision. Defined.

Definition getAttribute (name : string) (i : img) : option string :=
  attrs i !! name.

(** [const src = img.getAttribute('data-src'); if (src)]: the value the
    guarded block works with, [None] when the guard fails ([null] or the
    empty string). *)
Definition deferred (i : img) : option string :=
  let src := getAttribute "data-src" i in
  if Js.truthy src then src else None.

Definition loadImage (i : img) : img :=
  match deferred i with
  | Some src =>
      Img (delete "data-src" (<["src" := src]> (attrs i)))
          (Some ClearBlur) (style_opacity i) (style_filter i)
  | None => i
  end.

(** The browser fires [load] on an image: its handler, if any, runs. *)
Definition fire_load (i : img) : img :=
  match onload i with
  | Some ClearBlur => Img (attrs i) (onload i) (Some "1") (Some "blur(0px)")
  | None => i
  end.

(** What happened to the images, newest first: [Called k], [loadImage] was
    invoked on node [k]; [Assigned k v], the assignment [img.src = v] ran on
    node [k] (the moment the browser starts fetching). *)
Inductive action :=
| Called (k : nat)
| Assigned (k : nat) (v : string).

Global Instance action_eq_dec : EqDecision action.
Proof. solve_decision. Defined.

(** The widget and the part of the page it works on.  The images of the
    document are numbered in tree order, a node is its number.
    [observer] is [this.observer]: [None] for [null], otherwise the set of
    targets the [IntersectionObserver] currently observes. *)
Record loader := Loader {
  images : list img;
  observer : option (gset nat);
  history : list action
}.

(** [document.querySelectorAll('img[data-src]')]: a static list of the
    nodes that carry the attribute, whatever its value. *)
Definition marked (doc : list img) : list nat :=
  filter (λ k, is_Some (doc !! k ≫= getAttribute "data-src"))
         (seq 0 (length doc)).

(** [this.loadImage(node k)]: the image object is changed in place. *)
Definition loadImageAt (k : nat) (st : loader) : loader :=
  let assigned :=
    match images st !! k ≫= deferred with
    | Some src => [Assigned k src]
    | None => []
    end in
  Loader (alter loadImage k (images st)) (observer st)
         (assigned ++ Called k :: history st).

Definition observe (k : nat) (st : loader) : loader :=
  Loader (images st) ((λ obs, obs ∪ {[k]}) <$> observer st) (history st).

Definition unobserve (k : nat) (st : loader) : loader :=
  Loader (images st) ((λ obs, obs ∖ {[k]}) <$> observer st) (history st).

Definition observeImages (st : loader) : loader :=
  foldl (λ s k, observe k s) st (marked (images st)).

Definition loadAllImages (st : loader) : loader :=
  foldl (λ s k, loadImageAt k s) st (marked (images st)).

(** [init]: [hasIO] is ['IntersectionObserver' in window]. *)
Definition init (hasIO : bool) (doc : list img) : loader :=
  if hasIO then observeImages (Loader doc (Some ∅) [])
  else loadAllImages (Loader doc None []).

Record entry := Entry {
  target : nat;
  isIntersecting : bool
}.

Global Instance entry_eq_dec : EqDecision entry.
Proof. solve_decision. Defined.

(** The callback given to [new IntersectionObserver]: [step] is the body
    of its [forEach]. *)
Definition step (s : loader) (e : entry) : loader :=
  if isIntersecting e
  then unobserve (target e) (loadImageAt (target e) s)
  else s.

Definition callback (entries : list entry) (st : loader) : loader :=
  foldl step st entries.

(** The intersection facility of the browser: it reports on observed
    targets only, so of a batch of changes the callback receives the entries
    whose target is observed when the callback is invoked. *)
Definition notify (st : loader) (batch : list entry) : loader :=
  match observer st with
  | Some obs => callback (filter (λ e, target e ∈ obs) batch) st
  | None => st
  end.

Definition run (st : loader) (batches : list (list entry)) : loader :=
  foldl notify st batches.

(** How often [img.src] was assigned on node [k], and how often [loadImage]
    was invoked on it. *)
Definition is_assigned (k : nat) (a : action) : bool :=
  match a with
  | Assigned k' _ => bool_decide (k' = k)
  | Called _ => false
  end.

Definition loads (k : nat) (st : loader) : nat :=
  length (filter (λ a, is_assigned k a = true) (history st)).

Definition invocations (k : nat) (st : loader) : nat :=
  length (filter (λ a, a = Called k) (history st)).

(** The invariant behind "at most once": a node whose [src] was assigned
    has nothing deferred any more, and was assigned once. *)
Definition once (st : loader) : Prop :=
  ∀ k, loads k st = 0 ∨ loads k st = 1 ∧ images st !! k ≫= deferred = None.

(** What the widget keeps true of a page that started as [doc]: an image is
    as [loadImage] leaves it once [loadImage] was invoked on it and as it
    was before; and an observed image carries [data-src] and was never
    passed to [loadImage]. *)
Definition tracks (doc : list img) (st : loader) : Prop :=
  (∀ k, images st !! k =
        (if decide (0 < invocations k st)%nat then loadImage else id)
          <$> doc !! k) ∧
  (∀ obs k, observer st = Some obs → k ∈ obs →
            k ∈ marked doc ∧ invocations k st = 0%nat).

(** Sample pages. *)
Definition x_png : img :=
  Img {[ "data-src" := "x.png"; "alt" := "x" ]} None (Some "0") None.

Definition two_images : list img :=
  [ Img {[ "data-src" := "a.png" ]} None None None;
    Img {[ "data-src" := "b.png" ]} None None None ].

End LazyLoader.

(** ** class CodeBlockCopy *)
Module CodeBlockCopy.

Definition CLIPBOARD : string := "📋".
Definition CHECK : string := "✅".

(** The button [addCopyButton] creates. *)
Record button := Button {
  innerHTML : string;
  opacity : string
}.

(** A [<pre>]: the [innerText] of its first [<code>] descendant, when it
    has one, and the copy button once [addCopyButton] has run on it. *)
Record pre := Pre {
  code_text : option string;
  copy_button : option button
}.

(** A callback handed to [setTimeout]: at [due] (milliseconds on the page
    clock) the button of block [t_pre] gets [t_html] as its [innerHTML]. *)
Record timer := Timer {
  due : N;
  t_pre : nat;
  t_html : string
}.

(** The page around the widget: the [<pre>] blocks in tree order, the
    pending timers in the order they were set, the clock, whether
    [navigator.clipboard] is defined, the content of the system clipboard,
    the texts whose [writeText] promise is not settled yet, and what was
    written to the console. *)
Record page := Page {
  pres : list pre;
  timers : list timer;
  now : N;
  clipboard_api : bool;
  clipboard : option string;
  pending : list string;
  console : list string
}.

Definition with_pres (f : list pre → list pre) (st : page) : page :=
  Page (f (pres st)) (timers st) (now st) (clipboard_api st) (clipboard st)
       (pending st) (console st).

Definition set_button (k : nat) (f : button → button) (st : page) : page :=
  with_pres (alter (λ p, Pre (code_text p) (f <$> copy_button p)) k) st.

Definition addCopyButton (p : pre) : pre :=
  Pre (code_text p) (Some (Button CLIPBOARD "0")).

(** [init]: every [<pre>] of the document gets a button. *)
Definition init (st : page) : page := with_pres (fmap addCopyButton) st.

Definition onMouseEnter (k : nat) (st : page) : page :=
  set_button k (λ b, Button (innerHTML b) "1") st.

Definition onMouseLeave (k : nat) (st : page) : page :=
  set_button k (λ b, Button (innerHTML b) "0") st.

(** [navigator.clipboard.writeText(text).catch(...)]: the call returns a
    promise at once; reading [writeText] of [undefined] raises. *)
Definition copyToClipboard (text : string) (st : page) : Js.completion page :=
  if clipboard_api st then
    mret (Page (pres st) (timers st) (now st) (clipboard_api st)
               (clipboard st) (pending st ++ [text]) (console st))
  else Js.Throw (Js.TypeError "navigator.clipboard is undefined").

(** [pre.querySelector('code').innerText] *)
Definition code_innerText (p : pre) : Js.completion string :=
  match code_text p with
  | Some s => mret s
  | None => Js.Throw (Js.TypeError "pre.querySelector(...) is null")
  end.

(** The click listener of the button of block [k]. *)
Definition onClick (k : nat) (st : page) : Js.completion page :=
  match pres st !! k with
  | Some (Pre c (Some b)) =>
      code ← code_innerText (Pre c (Some b));
      st1 ← copyToClipboard code st;
      let originalHTML := innerHTML b in
      let st2 := set_button k (λ b, Button CHECK (opacity b)) st1 in
      mret (Page (pres st2)
                 (timers st2 ++ [Timer (now st2 + 2000) k originalHTML])
                 (now st2) (clipboard_api st2) (clipboard st2) (pending st2)
                 (console st2))
  | _ => mret st
  end.

(** How the oldest pending [writeText] promise settles: it is fulfilled, or
    it is rejected and the [catch] handler runs: it logs the error, and its
    [document.execCommand('copy')] on a temporary [<textarea>], which it
    appends to the body and removes again, may or may not copy. *)
Inductive outcome :=
| Fulfilled
| Rejected (execCommand_copies : bool).

Definition settle (o : outcome) (st : page) : page :=
  match pending st with
  | [] => st
  | text :: rest =>
      match o with
      | Fulfilled =>
          Page (pres st) (timers st) (now st) (clipboard_api st) (Some text)
               rest (console st)
      | Rejected copies =>
          Page (pres st) (timers st) (now st) (clipboard_api st)
               (if copies then Some text else clipboard st)
               rest (console st ++ ["复制失败:"])
      end
  end.

Definition fire (st : page) (tm : timer) : page :=
  set_button (t_pre tm) (λ b, Button (t_html tm) (opacity b)) st.

(** The clock reaches [t]: the callbacks due by then run, oldest first. *)
Definition advance (t : N) (st : page) : page :=
  let ready := filter (λ tm, (due tm ≤ t)%N) (timers st) in
  let later := filter (λ tm, ¬ (due tm ≤ t)%N) (timers st) in
  foldl fire
    (Page (pres st) later (N.max (now st) t) (clipboard_api st)
          (clipboard st) (pending st) (console st))
    ready.

(** What the button of block [k] shows. *)
Definition icon (k : nat) (st : page) : option string :=
  p ← pres st !! k; b ← copy_button p; Some (innerHTML b).

(** The [style.opacity] of the button of block [k]. *)
Definition button_opacity (k : nat) (st : page) : option string :=
  p ← pres st !! k; b ← copy_button p; Some (opacity b).

(** A click followed by whatever the handler lets through: a raise leaves
    the page as it was. *)
Definition click (k : nat) (st : page) : page :=
  match onClick k st with
  | Js.Normal st' => st'
  | Js.Throw _ => st
  end.

(** Sample pages: one block, with and without a [<code>] element, before
    [init]. *)
Definition page_of (blocks : list pre) : page :=
  Page blocks [] 0 true None [] [].

Definition with_code : page := page_of [Pre (Some "let x = 1;") None].
Definition without_code : page := page_of [Pre None None].

(** The same block on a page where [navigator.clipboard] is undefined. *)
Definition without_clipboard : page :=
  Page [Pre (Some "let x = 1;") None] [] 0 false None [] [].

End CodeBlockCopy.

(** * Properties *)

(** ** JavaScript fragments *)
Module JsFacts.
Import Js.

Lemma or_else_truthy v d :
  or_else v d = if truthy v then default d v else d.
Proof. destruct v as [s|]; simpl; [by case_bool_decide|done]. Qed.

Lemma truthy_Some_inv v : truthy v = true → ∃ s, v = Some s ∧ s ≠ "".
Proof.
  destruct v as [s|]; simpl; [|done].
  case_bool_decide; [done|]. eauto.
Qed.

Lemma truthy_Some s : s ≠ "" → truthy (Some s) = true.
Proof. intros Hs. simpl. by rewrite bool_decide_eq_false_2. Qed.

Lemma or_else_nonempty s d : s ≠ "" → or_else (Some s) d = s.
Proof. intros Hs. simpl. by rewrite bool_decide_eq_false_2. Qed.

End JsFacts.

(** ** ThemeManager *)
Module ThemeManagerFacts.
Import ThemeManager.

Lemma setTheme_data_theme t st : data_theme (setTheme t st) = Some t.
Proof. unfold setTheme, updateIcon. simpl. by destruct (toggle_el st) as [[?|]|]. Qed.

Lemma setTheme_stored_theme t st : stored_theme (setTheme t st) = Some t.
Proof. unfold setTheme, updateIcon. simpl. by destruct (toggle_el st) as [[?|]|]. Qed.

Lemma setTheme_prefers_dark t st :
  prefers_dark (setTheme t st) = prefers_dark st.
Proof. unfold setTheme, updateIcon. simpl. by destruct (toggle_el st) as [[?|]|]. Qed.

Lemma setTheme_themeIcon t st :
  themeIcon (setTheme t st) = (λ _, glyph t) <$> themeIcon st.
Proof.
  unfold setTheme, updateIcon, themeIcon. simpl.
  by destruct (toggle_el st) as [[?|]|].
Qed.

Lemma updateIcon_idem t st : updateIcon t (setTheme t st) = setTheme t st.
Proof. unfold setTheme, updateIcon. simpl. by destruct (toggle_el st) as [[?|]|]. Qed.

Lemma setTheme_setTheme t u st : setTheme t (setTheme u st) = setTheme t st.
Proof. unfold setTheme, updateIcon. simpl. by destruct (toggle_el st) as [[?|]|]. Qed.

Lemma scheme_nonempty dark : scheme dark ≠ "".
Proof. by destruct dark. Qed.

(** Loading is applying the resolved theme. *)
Lemma loadTheme_setTheme st :
  loadTheme st =
  setTheme (Js.or_else (getSavedTheme st) (getSystemPreference st)) st.
Proof. unfold loadTheme. apply updateIcon_idem. Qed.

Lemma setTheme_synced t st : synced t (setTheme t st).
Proof.
  repeat split.
  - apply setTheme_data_theme.
  - apply setTheme_stored_theme.
  - rewrite setTheme_themeIcon. destruct (themeIcon st); auto.
Qed.

Lemma synced_setTheme t st : synced t st → setTheme t st = st.
Proof.
  destruct st as [a s tg pd]. unfold synced, themeIcon, setTheme, updateIcon.
  simpl. intros (-> & -> & Hicon).
  destruct tg as [[x|]|]; try done.
  destruct Hicon as [?|[= ->]]; done.
Qed.

(** After construction something is always stored, whatever was before. *)
Lemma construct_stores st : Js.truthy (stored_theme (construct st)) = true.
Proof.
  unfold construct. rewrite loadTheme_setTheme, setTheme_stored_theme.
  apply JsFacts.truthy_Some. unfold getSavedTheme, getSystemPreference.
  destruct (stored_theme st) as [s|]; simpl.
  - case_bool_decide; [apply scheme_nonempty|done].
  - apply scheme_nonempty.
Qed.

(** Once something is stored, a change of the system scheme changes
    nothing but what [matchMedia] reports. *)
Lemma stored_choice_overrides st matches :
  Js.truthy (stored_theme st) = true →
  dispatch st (SchemeChange matches) =
  Page (data_theme st) (stored_theme st) (toggle_el st) matches.
Proof. intros H. unfold dispatch, onSchemeChange, getSavedTheme. simpl. by rewrite H. Qed.

Lemma run_cons st e es : run st (e :: es) = run (dispatch st e) es.
Proof. reflexivity. Qed.

Lemma scheme_changes_keep st ms :
  Js.truthy (stored_theme st) = true →
  data_theme (run st (SchemeChange <$> ms)) = data_theme st ∧
  stored_theme (run st (SchemeChange <$> ms)) = stored_theme st ∧
  prefers_dark (run st (SchemeChange <$> ms)) = default (prefers_dark st) (last ms).
Proof.
  revert st. induction ms as [|m ms IH]; intros st H; [done|].
  rewrite fmap_cons, run_cons, stored_choice_overrides by done.
  destruct (IH (Page (data_theme st) (stored_theme st) (toggle_el st) m) H)
    as (Ha & Hs & Hp).
  rewrite Ha, Hs, Hp. simpl. repeat split.
  rewrite last_cons. by destruct (last ms).
Qed.

(** C1: the listener for changes of the system colour scheme does not leave
    persistent storage alone.  Whenever it finds nothing stored it applies
    the new theme through [setTheme], which stores it; and construction
    already stores the resolved theme on a first visit, so that without any
    click on the toggle the storage holds a theme and the next change of
    the system scheme is not applied at all. *)
Theorem scheme_change_is_persisted :
  (∀ st matches,
     stored_theme (onSchemeChange matches st) =
     if Js.truthy (stored_theme st) then stored_theme st
     else Some (scheme matches)) ∧
  (∀ toggle dark,
     stored_theme (construct (first_visit toggle dark)) = Some (scheme dark)) ∧
  run (construct (first_visit (Some (Some MOON)) false)) [SchemeChange true]
  = Page (Some "light") (Some "light") (Some (Some MOON)) true.
Proof.
  split; [|split].
  - intros st matches. unfold onSchemeChange, getSavedTheme.
    destruct (Js.truthy (stored_theme st)); simpl; [done|].
    apply setTheme_stored_theme.
  - intros toggle dark. unfold construct.
    by rewrite loadTheme_setTheme, setTheme_stored_theme.
  - reflexivity.
Qed.

(** C2: on a first visit (nothing stored) and with no click on the toggle,
    the theme of the document stays the system preference found at load
    time, however the system preference changes afterwards: the effective
    theme does not follow the ambient preference.  The instance: loaded
    under a light system scheme that then turns dark, the document stays
    light. *)
Theorem scheme_changes_ignored_after_load :
  (∀ toggle dark ms,
     let st := run (construct (first_visit toggle dark)) (SchemeChange <$> ms) in
     data_theme st = Some (scheme dark) ∧
     prefers_dark st = default dark (last ms)) ∧
  (let st := run (construct (first_visit None false)) [SchemeChange true] in
   data_theme st = Some "light" ∧ getSystemPreference st = "dark").
Proof.
  split; [|done].
  intros toggle dark ms. simpl.
  destruct (scheme_changes_keep (construct (first_visit toggle dark)) ms
              (construct_stores _)) as (Ha & _ & Hp).
  rewrite Ha, Hp. unfold construct.
  by rewrite loadTheme_setTheme, setTheme_data_theme, setTheme_prefers_dark.
Qed.

(** The new theme [toggleTheme] computes. *)
Lemma toggleTheme_setTheme st :
  toggleTheme st =
  setTheme (if bool_decide (Js.or_else (data_theme st) "light" = "light")
            then "dark" else "light") st.
Proof. reflexivity. Qed.

(** C9, as stated, fails: with no [data-theme] attribute two toggles leave
    the attribute set to light, and from a page constructed with an unknown
    stored theme they lead to dark; in neither case is the state the
    original one. *)
Lemma toggle_twice_not_original :
  (data_theme (first_visit None false) = None ∧
   data_theme (toggleTheme (toggleTheme (first_visit None false)))
   = Some "light") ∧
  (data_theme (construct (Page None (Some "sepia") None false))
   = Some "sepia" ∧
   data_theme (toggleTheme (toggleTheme
     (construct (Page None (Some "sepia") None false)))) = Some "dark").
Proof. done. Qed.

(** C9, amended: from a state whose [data-theme] attribute is light or
    dark, two toggles restore the attribute, and they restore the whole
    state when storage and icon agreed with the attribute. *)
Theorem toggle_twice_restores st t :
  t = "light" ∨ t = "dark" →
  data_theme st = Some t →
  data_theme (toggleTheme (toggleTheme st)) = data_theme st ∧
  (synced t st → toggleTheme (toggleTheme st) = st).
Proof.
  intros Ht Ha.
  assert (toggleTheme (toggleTheme st) = setTheme t st) as ->.
  { rewrite !toggleTheme_setTheme, setTheme_data_theme, Ha.
    rewrite setTheme_setTheme. by destruct Ht as [-> | ->]. }
  split.
  - by rewrite setTheme_data_theme.
  - apply synced_setTheme.
Qed.

(** Two toggles on a freshly constructed dark page. *)
Lemma toggle_twice_restores_witness :
  toggleTheme (toggleTheme (construct (first_visit (Some (Some "")) true)))
  = construct (first_visit (Some (Some "")) true).
Proof.
  refine (proj2 (toggle_twice_restores
                   (construct (first_visit (Some (Some "")) true)) "dark"
                   _ _) _).
  - by right.
  - reflexivity.
  - repeat split. by right.
Defined.

(** The states the widget itself produces are synced: after construction,
    and after every toggle. *)
Lemma construct_synced st :
  synced (Js.or_else (stored_theme st) (scheme (prefers_dark st))) (construct st).
Proof. unfold construct. rewrite loadTheme_setTheme. apply setTheme_synced. Qed.

Lemma toggleTheme_synced st :
  ∃ t, (t = "light" ∨ t = "dark") ∧ synced t (toggleTheme st).
Proof.
  rewrite toggleTheme_setTheme.
  case_bool_decide; eexists; (split; [|apply setTheme_synced]); auto.
Qed.

(** C10, as stated, fails: an absent attribute is toggled to dark. *)
Lemma toggle_absent_gives_dark :
  data_theme (first_visit None false) = None ∧
  data_theme (toggleTheme (first_visit None false)) = Some "dark".
Proof. done. Qed.

(** C10, amended: [toggleTheme] maps light, an absent attribute and the
    empty string to dark and every other value to light; the attribute and
    the stored value are then the same, and light or dark. *)
Theorem toggleTheme_result st :
  (data_theme st = Some "light" ∨ data_theme st = None ∨
   data_theme st = Some "" →
   data_theme (toggleTheme st) = Some "dark") ∧
  (data_theme st ≠ Some "light" ∧ data_theme st ≠ None ∧
   data_theme st ≠ Some "" →
   data_theme (toggleTheme st) = Some "light") ∧
  stored_theme (toggleTheme st) = data_theme (toggleTheme st) ∧
  (data_theme (toggleTheme st) = Some "light" ∨
   data_theme (toggleTheme st) = Some "dark").
Proof.
  rewrite toggleTheme_setTheme, setTheme_data_theme, setTheme_stored_theme.
  repeat split.
  - by intros [-> | [-> | ->]].
  - intros (Hl & Hn & He). destruct (data_theme st) as [s|]; [|done].
    rewrite JsFacts.or_else_nonempty by congruence.
    rewrite bool_decide_eq_false_2; [done|congruence].
  - case_bool_decide; auto.
Qed.

(** An unknown theme is toggled to light. *)
Lemma toggleTheme_result_witness :
  data_theme (toggleTheme (Page (Some "sepia") None None false))
  = Some "light".
Proof.
  apply (proj1 (proj2 (toggleTheme_result (Page (Some "sepia") None None false)))).
  repeat split; discriminate.
Defined.

End ThemeManagerFacts.

(** ** ReadingProgress *)
Module ReadingProgressFacts.
Import ReadingProgress.

Lemma ltb_leb x y : (x <? y)%float = true → (x <=? y)%float = true.
Proof.
  rewrite ltb_spec, leb_spec. unfold SFltb, SFleb.
  by destruct (SFcompare _ _) as [[]|].
Qed.

(** [Math.max(0, x)] is [NaN], [0] or an [x] above [0]. *)
Lemma Math_max_0 x :
  Math_max 0 x = nan ∧ is_nan x = true ∨
  Math_max 0 x = 0%float ∧ is_nan x = false ∨
  Math_max 0 x = x ∧ is_nan x = false ∧ (0 <? x)%float = true.
Proof.
  unfold Math_max. change (is_nan 0) with false.
  change (max_step neg_infinity 0) with 0%float.
  destruct (is_nan x) eqn:Hnan; simpl; [by left|right].
  unfold max_step. change (is_neg_zero 0) with false.
  rewrite andb_false_r. destruct (0 <? x)%float; auto.
Qed.

(** [Math.min(100, y)] is [NaN], [100] or a [y] below [100]. *)
Lemma Math_min_100 y :
  Math_min 100 y = nan ∧ is_nan y = true ∨
  Math_min 100 y = 100%float ∧ is_nan y = false ∨
  Math_min 100 y = y ∧ is_nan y = false ∧ (y <? 100)%float = true.
Proof.
  unfold Math_min. change (is_nan 100) with false.
  change (min_step infinity 100) with 100%float.
  destruct (is_nan y) eqn:Hnan; simpl; [by left|right].
  unfold min_step. change (is_pos_zero 100) with false.
  rewrite andb_false_r. destruct (y <? 100)%float; auto.
Qed.

(** The clamp does its work on every number: the percentage is within
    [0, 100] unless the quotient it clamps is [NaN], in which case it is
    [NaN] itself. *)
Lemma scrollPercent_nan_or_within h t s w :
  let raw := ((s - t + w) / h * 100)%float in
  if is_nan raw then scrollPercent h t s w = nan
  else within 0 100 (scrollPercent h t s w) = true.
Proof.
  simpl. unfold scrollPercent.
  set (raw := ((s - t + w) / h * 100)%float).
  destruct (Math_max_0 raw) as [[-> ->]|[[-> ->]|(-> & Hnan & Hpos)]];
    [done|done|].
  rewrite Hnan.
  destruct (Math_min_100 raw) as [[_ Hn]|[[-> _]|(-> & _ & Hlt)]].
  - congruence.
  - done.
  - unfold within. by rewrite !ltb_leb.
Qed.


(** C5: with the same empty content region and window, the percentages at
    scroll offsets 199, 200 and 201 are 0, [NaN] and 100: from offset 199 to
    offset 200 the percentage does not stay below or equal. *)
Theorem scrollPercent_empty_content_unordered :
  (199 <=? 200)%float = true ∧
  scrollPercent 0 1000 199 800 = 0%float ∧
  scrollPercent 0 1000 200 800 = nan ∧
  scrollPercent 0 1000 201 800 = 100%float ∧
  (scrollPercent 0 1000 199 800 <=? scrollPercent 0 1000 200 800)%float
  = false.
Proof. repeat split. Qed.

End ReadingProgressFacts.

(** ** LazyLoader *)
Module LazyLoaderFacts.
Import LazyLoader.

(** *** [loadImage] on one image *)

Lemma deferred_Some i v :
  deferred i = Some v ↔ getAttribute "data-src" i = Some v ∧ v ≠ "".
Proof.
  unfold deferred. destruct (getAttribute "data-src" i) as [s|]; simpl.
  - case_bool_decide as Hs; simpl; split.
    + done.
    + intros [[= ->] ?]. done.
    + by intros [= ->].
    + by intros [? _].
  - split; [done|by intros [? _]].
Qed.

Lemma deferred_None i :
  deferred i = None ↔
  getAttribute "data-src" i = None ∨ getAttribute "data-src" i = Some "".
Proof.
  unfold deferred. destruct (getAttribute "data-src" i) as [s|]; simpl.
  - case_bool_decide as Hs; simpl; split; try done.
    + subst. auto.
    + intros [?|[= ?]]; done.
  - split; auto.
Qed.

Lemma loadImage_not_deferred i : deferred i = None → loadImage i = i.
Proof. unfold loadImage. by intros ->. Qed.

Lemma loadImage_data_src i v :
  deferred i = Some v → getAttribute "data-src" (loadImage i) = None.
Proof.
  unfold loadImage. intros ->. unfold getAttribute. simpl.
  apply lookup_delete_eq.
Qed.

Lemma loadImage_src i v :
  deferred i = Some v → getAttribute "src" (loadImage i) = Some v.
Proof.
  unfold loadImage. intros ->. unfold getAttribute. simpl.
  rewrite lookup_delete_ne by done. apply lookup_insert_eq.
Qed.

(** Whatever the image, nothing is deferred once [loadImage] has run. *)
Lemma deferred_loadImage i : deferred (loadImage i) = None.
Proof.
  destruct (deferred i) as [v|] eqn:Hd.
  - apply deferred_None. left. by eapply loadImage_data_src.
  - by rewrite loadImage_not_deferred.
Qed.

Lemma loadImage_idem i : loadImage (loadImage i) = loadImage i.
Proof. apply loadImage_not_deferred, deferred_loadImage. Qed.

(** *** The nodes [querySelectorAll] returns *)

Lemma elem_of_marked doc k :
  k ∈ marked doc ↔ ∃ i, doc !! k = Some i ∧ is_Some (getAttribute "data-src" i).
Proof.
  unfold marked. rewrite list_elem_of_filter, elem_of_seq. split.
  - intros [Hm _]. destruct (doc !! k) as [i|]; simpl in Hm.
    + eauto.
    + by destruct Hm.
  - intros (i & Hk & Hi). rewrite Hk. simpl. split; [done|].
    apply lookup_lt_Some in Hk. lia.
Qed.

Lemma not_marked_not_deferred doc k i :
  doc !! k = Some i → k ∉ marked doc → deferred i = None.
Proof.
  intros Hk Hm. apply deferred_None. left.
  destruct (getAttribute "data-src" i) as [v|] eqn:Hv; [|done].
  destruct Hm. apply elem_of_marked. eauto.
Qed.

(** *** [loadImage] on a node of the page *)

Lemma images_loadImageAt k st :
  images (loadImageAt k st) = alter loadImage k (images st).
Proof. reflexivity. Qed.

Lemma observer_loadImageAt k st : observer (loadImageAt k st) = observer st.
Proof. reflexivity. Qed.

Lemma images_fold_loadImageAt ks st j :
  images (foldl (λ s k, loadImageAt k s) st ks) !! j =
  (if decide (j ∈ ks) then loadImage else id) <$> images st !! j.
Proof.
  revert st. induction ks as [|k ks IH]; intros st.
  - destruct (decide (j ∈ [])) as [Hin|_]; [by apply elem_of_nil in Hin|].
    simpl. by destruct (images st !! j).
  - change (foldl (λ s k, loadImageAt k s) st (k :: ks))
      with (foldl (λ s k, loadImageAt k s) (loadImageAt k st) ks).
    rewrite IH, images_loadImageAt.
    destruct (decide (k = j)) as [->|Hkj].
    + rewrite list_lookup_alter_eq.
      destruct (decide (j ∈ j :: ks)) as [_|Hnin];
        [|destruct Hnin; apply elem_of_cons; by left].
      destruct (images st !! j) as [i|]; simpl; [|done].
      case_decide; simpl; [by rewrite loadImage_idem|done].
    + rewrite list_lookup_alter_ne by done.
      destruct (decide (j ∈ ks)) as [Hin|Hnin].
      * destruct (decide (j ∈ k :: ks)) as [_|Hn]; [done|].
        destruct Hn. apply elem_of_cons. by right.
      * destruct (decide (j ∈ k :: ks)) as [Hin|_]; [|done].
        apply elem_of_cons in Hin as [->|?]; done.
Qed.

(** Without the intersection facility every image of the page has been
    through [loadImage] when [init] returns. *)
Lemma images_init_fallback doc : images (init false doc) = loadImage <$> doc.
Proof.
  unfold init, loadAllImages. simpl. apply list_eq. intros j.
  rewrite images_fold_loadImageAt, list_lookup_fmap. simpl.
  destruct (doc !! j) as [i|] eqn:Hj; simpl; [|done].
  case_decide as Hm; simpl; [done|].
  f_equal. symmetry. apply loadImage_not_deferred.
  by eapply not_marked_not_deferred.
Qed.

(** C7: [loadImage] on an image whose [data-src] holds a value (a non-empty
    string, what the guard [if (src)] lets through) leaves [src] equal to
    that value and [data-src] absent; on an image without [data-src], or
    with an empty one, it changes nothing; and without the intersection
    facility [init] leaves every image of the page, so every marked one, as
    [loadImage] leaves it. *)
Theorem loadImage_contract :
  (∀ i v,
     getAttribute "data-src" i = Some v → v ≠ "" →
     getAttribute "src" (loadImage i) = Some v ∧
     getAttribute "data-src" (loadImage i) = None) ∧
  (∀ i,
     getAttribute "data-src" i = None ∨ getAttribute "data-src" i = Some "" →
     loadImage i = i) ∧
  (∀ doc k i,
     doc !! k = Some i →
     images (init false doc) !! k = Some (loadImage i)).
Proof.
  split; [|split].
  - intros i v Hv Hne.
    assert (deferred i = Some v) as Hd by by apply deferred_Some.
    split; [by apply loadImage_src|by eapply loadImage_data_src].
  - intros i Hi. by apply loadImage_not_deferred, deferred_None.
  - intros doc k i Hk. by rewrite images_init_fallback, list_lookup_fmap, Hk.
Qed.

(** The image [data-src="x.png"], alone on a page without the intersection
    facility. *)
Lemma loadImage_contract_witness :
  getAttribute "src" (loadImage x_png) = Some "x.png" ∧
  getAttribute "data-src" (loadImage x_png) = None ∧
  images (init false [x_png]) !! 0 = Some (loadImage x_png).
Proof.
  destruct loadImage_contract as (Hload & _ & Hall).
  destruct (Hload x_png "x.png") as [Hsrc Hdata]; [done|done|].
  split; [exact Hsrc|split; [exact Hdata|]].
  by apply Hall.
Defined.

(** *** The record of calls and assignments *)

Lemma loads_loadImageAt k j st :
  loads j (loadImageAt k st) =
  loads j st +
  (if decide (j = k)
   then match images st !! k ≫= deferred with Some _ => 1 | None => 0 end
   else 0).
Proof.
  unfold loads, loadImageAt. simpl. rewrite filter_app, length_app.
  rewrite filter_cons_False by done.
  destruct (images st !! k ≫= deferred) as [v|]; simpl.
  - rewrite filter_cons, filter_nil. simpl.
    destruct (decide (j = k)) as [->|Hjk].
    + rewrite bool_decide_eq_true_2 by done.
      rewrite decide_True by done. simpl. lia.
    + rewrite bool_decide_eq_false_2 by done.
      rewrite decide_False by done. simpl. lia.
  - destruct (decide (j = k)); lia.
Qed.

Lemma invocations_loadImageAt k j st :
  invocations j (loadImageAt k st) =
  invocations j st + (if decide (j = k) then 1 else 0).
Proof.
  unfold invocations, loadImageAt. simpl. rewrite filter_app, length_app.
  assert (filter (λ a, a = Called j)
            (match images st !! k ≫= deferred with
             | Some src => [Assigned k src]
             | None => []
             end) = []) as ->.
  { destruct (images st !! k ≫= deferred); [|done].
    by rewrite filter_cons_False. }
  simpl. destruct (decide (j = k)) as [->|Hjk].
  - rewrite filter_cons_True by done. simpl. lia.
  - rewrite filter_cons_False by congruence. lia.
Qed.

(** *** At most one assignment of [src] per image *)

Lemma once_same st st' :
  images st' = images st → history st' = history st → once st → once st'.
Proof. unfold once, loads. by intros -> ->. Qed.

Lemma once_loadImageAt k st : once st → once (loadImageAt k st).
Proof.
  intros Hst j. rewrite loads_loadImageAt, images_loadImageAt.
  destruct (decide (j = k)) as [->|Hjk].
  - rewrite list_lookup_alter_eq.
    assert ((loadImage <$> images st !! k) ≫= deferred = None) as Hnone.
    { destruct (images st !! k); [apply deferred_loadImage|done]. }
    destruct (images st !! k ≫= deferred) as [v|] eqn:Hd.
    + destruct (Hst k) as [->|[_ Hk]]; [by right|congruence].
    + destruct (Hst k) as [->|[-> Hk]]; auto.
  - rewrite list_lookup_alter_ne by done. rewrite Nat.add_0_r. apply Hst.
Qed.

Lemma once_callback es st : once st → once (callback es st).
Proof.
  unfold callback. revert st. induction es as [|e es IH]; intros st Hst; [done|].
  simpl. apply IH. unfold step. destruct (isIntersecting e); [|done].
  eapply once_same; [| |by apply (once_loadImageAt (target e))]; done.
Qed.

Lemma once_notify st batch : once st → once (notify st batch).
Proof.
  unfold notify. destruct (observer st); [apply once_callback|done].
Qed.

Lemma once_run st batches : once st → once (run st batches).
Proof.
  unfold run. revert st. induction batches as [|b bs IH]; intros st Hst; [done|].
  simpl. by apply IH, once_notify.
Qed.

Lemma once_fold_loadImageAt ks st :
  once st → once (foldl (λ s k, loadImageAt k s) st ks).
Proof.
  revert st. induction ks as [|k ks IH]; intros st Hst; [done|].
  simpl. by apply IH, once_loadImageAt.
Qed.

Lemma observeImages_same ks st :
  images (foldl (λ s k, observe k s) st ks) = images st ∧
  history (foldl (λ s k, observe k s) st ks) = history st.
Proof.
  revert st. induction ks as [|k ks IH]; intros st; [done|].
  simpl. by destruct (IH (observe k st)) as [-> ->].
Qed.

Lemma once_init hasIO doc : once (init hasIO doc).
Proof.
  assert (∀ obs, once (Loader doc obs [])) as Hnew by (intros obs k; by left).
  unfold init. destruct hasIO.
  - unfold observeImages. eapply once_same; [..|apply (Hnew (Some ∅))];
      apply observeImages_same.
  - apply once_fold_loadImageAt, Hnew.
Qed.

(** *** What a notification does to one node *)

Lemma callback_cons e es st : callback (e :: es) st = callback es (step st e).
Proof. reflexivity. Qed.

Lemma invocations_step j st e :
  invocations j (step st e) =
  invocations j st +
  (if decide (e = Entry j true) then 1 else 0).
Proof.
  destruct e as [k [|]]; unfold step; simpl.
  - change (invocations j (unobserve k (loadImageAt k st)))
      with (invocations j (loadImageAt k st)).
    rewrite invocations_loadImageAt.
    destruct (decide (j = k)) as [->|Hjk].
    + by rewrite decide_True.
    + rewrite decide_False; [done|congruence].
  - rewrite decide_False; [lia|congruence].
Qed.

Lemma loads_step_other j st e :
  target e ≠ j → loads j (step st e) = loads j st.
Proof.
  intros Hj. unfold step. destruct (isIntersecting e); [|done].
  change (loads j (unobserve (target e) (loadImageAt (target e) st)))
    with (loads j (loadImageAt (target e) st)).
  rewrite loads_loadImageAt, decide_False; [lia|done].
Qed.

Lemma invocations_callback_le j es st :
  (invocations j st ≤ invocations j (callback es st))%nat.
Proof.
  revert st. induction es as [|e es IH]; intros st; [done|].
  rewrite callback_cons. etrans; [|apply IH].
  rewrite invocations_step. lia.
Qed.

(** An intersecting entry for [j] makes the callback call [loadImage] on
    [j]. *)
Lemma invocations_callback_lt j es st :
  Entry j true ∈ es → (invocations j st < invocations j (callback es st))%nat.
Proof.
  revert st. induction es as [|e es IH]; intros st Hin.
  - by apply elem_of_nil in Hin.
  - rewrite callback_cons. apply elem_of_cons in Hin as [<-|Hin].
    + eapply Nat.lt_le_trans; [|apply invocations_callback_le].
      rewrite invocations_step, decide_True by done. lia.
    + eapply Nat.le_lt_trans; [|by apply IH].
      rewrite invocations_step. lia.
Qed.

(** Entries for other nodes leave the record of [j] alone. *)
Lemma callback_other j es st :
  (∀ e, e ∈ es → target e ≠ j) →
  invocations j (callback es st) = invocations j st ∧
  loads j (callback es st) = loads j st.
Proof.
  revert st. induction es as [|e es IH]; intros st Hes; [done|].
  rewrite callback_cons.
  destruct (IH (step st e)) as [-> ->].
  { intros e' He'. apply Hes, elem_of_cons. by right. }
  assert (target e ≠ j) as Hj by (apply Hes, elem_of_cons; by left).
  split; [|by apply loads_step_other].
  rewrite invocations_step, decide_False; [lia|].
  intros ->. by apply Hj.
Qed.

(** The observer never gains a target in a callback, and loses the target
    of every intersecting entry. *)
Lemma observer_callback es st obs' j :
  observer (callback es st) = Some obs' → j ∈ obs' →
  (∃ obs, observer st = Some obs ∧ j ∈ obs) ∧ Entry j true ∉ es.
Proof.
  revert st. induction es as [|e es IH]; intros st Hobs Hj.
  - split; [eauto|apply not_elem_of_nil].
  - rewrite callback_cons in Hobs.
    destruct (IH _ Hobs Hj) as [(obs & Hst & Hin) Hes].
    unfold step in Hst. destruct e as [k [|]]; simpl in Hst.
    + destruct (observer st) as [obs0|] eqn:Hobs0; [|done].
      injection Hst as <-. apply elem_of_difference in Hin as [Hin Hk].
      split; [eauto|]. rewrite elem_of_cons. intros [[= ->]|?]; [|done].
      apply Hk. by apply elem_of_singleton.
    + split; [eauto|]. rewrite elem_of_cons. intros [?|?]; done.
Qed.

Lemma observer_notify st batch obs' j :
  observer (notify st batch) = Some obs' → j ∈ obs' →
  (∃ obs, observer st = Some obs ∧ j ∈ obs) ∧ Entry j true ∉ batch.
Proof.
  unfold notify. destruct (observer st) as [obs|] eqn:Hst; [|congruence].
  intros Hobs Hj.
  destruct (observer_callback _ _ _ _ Hobs Hj) as [(obs0 & Hst0 & Hin) Hes].
  assert (obs0 = obs) as -> by congruence.
  split; [eauto|]. intros Hb. apply Hes, list_elem_of_filter. by split.
Qed.

(** A node that is not observed is left alone by a notification, *)
Lemma notify_unobserved j st batch :
  (∀ obs, observer st = Some obs → j ∉ obs) →
  invocations j (notify st batch) = invocations j st ∧
  loads j (notify st batch) = loads j st.
Proof.
  intros Hj. unfold notify. destruct (observer st) as [obs|]; [|done].
  apply callback_other. intros e [He _]%list_elem_of_filter Hej.
  apply (Hj obs); [done|]. by rewrite <- Hej.
Qed.

(** and by every sequence of them. *)
Lemma run_unobserved j st batches :
  (∀ obs, observer st = Some obs → j ∉ obs) →
  invocations j (run st batches) = invocations j st ∧
  loads j (run st batches) = loads j st.
Proof.
  unfold run. revert st. induction batches as [|b bs IH]; intros st Hj; [done|].
  simpl. destruct (IH (notify st b)) as [-> ->].
  - intros obs' Hobs' Hin.
    destruct (observer_notify _ _ _ _ Hobs' Hin) as [(obs & Hobs & ?) _].
    by apply (Hj obs).
  - by apply notify_unobserved.
Qed.

(** C8: whatever the notifications, [img.src] is assigned at most once on
    each image; and when a notification carries an intersecting entry for
    an observed image, the callback invokes [loadImage] on it and the image
    is not observed afterwards, so that no later notification invokes
    [loadImage] on it or loads it again. *)
Theorem loaded_at_most_once :
  (∀ hasIO doc batches k, (loads k (run (init hasIO doc) batches) ≤ 1)%nat) ∧
  (∀ st obs batch later k,
     observer st = Some obs → k ∈ obs → Entry k true ∈ batch →
     (invocations k st < invocations k (notify st batch))%nat ∧
     (∀ obs', observer (notify st batch) = Some obs' → k ∉ obs') ∧
     invocations k (run (notify st batch) later)
     = invocations k (notify st batch) ∧
     loads k (run (notify st batch) later) = loads k (notify st batch)).
Proof.
  split.
  - intros hasIO doc batches k.
    destruct (once_run _ batches (once_init hasIO doc) k) as [->|[-> _]]; lia.
  - intros st obs batch later k Hobs Hk Hin.
    assert (∀ obs', observer (notify st batch) = Some obs' → k ∉ obs') as Hgone.
    { intros obs' Hobs' Hk'.
      by destruct (observer_notify _ _ _ _ Hobs' Hk') as [_ []]. }
    split; [|split; [done|by apply run_unobserved]].
    unfold notify. rewrite Hobs. apply invocations_callback_lt.
    apply list_elem_of_filter. by split.
Qed.

(** Two observed images; the second intersects, and is reported again
    later. *)
Lemma loaded_at_most_once_witness :
  (invocations 1 (init true two_images)
   < invocations 1 (notify (init true two_images) [Entry 1 true]))%nat ∧
  invocations 1
    (run (notify (init true two_images) [Entry 1 true])
         [[Entry 1 true; Entry 0 false]; [Entry 1 true]])
  = invocations 1 (notify (init true two_images) [Entry 1 true]).
Proof.
  destruct (proj2 loaded_at_most_once (init true two_images) {[0; 1]}
              [Entry 1 true] [[Entry 1 true; Entry 0 false]; [Entry 1 true]] 1)
    as (Hcall & _ & Hlater & _).
  - vm_compute. reflexivity.
  - set_solver.
  - apply elem_of_cons. by left.
  - split; [exact Hcall|exact Hlater].
Defined.

End LazyLoaderFacts.

(** ** CodeBlockCopy *)
Module CodeBlockCopyFacts.
Import CodeBlockCopy.

(** The handler raises as soon as the block has no [<code>] element, and
    when [navigator.clipboard] is undefined. *)
Lemma onClick_no_code k st b :
  pres st !! k = Some (Pre None (Some b)) →
  onClick k st = Js.Throw (Js.TypeError "pre.querySelector(...) is null").
Proof. unfold onClick. by intros ->. Qed.

Lemma onClick_no_clipboard k st c b :
  pres st !! k = Some (Pre (Some c) (Some b)) → clipboard_api st = false →
  onClick k st = Js.Throw (Js.TypeError "navigator.clipboard is undefined").
Proof.
  unfold onClick. intros -> Hapi. simpl. unfold copyToClipboard.
  by rewrite Hapi.
Qed.

(** On a block that has a [<code>] element, with [navigator.clipboard]
    defined and no timer pending, the click shows the check mark however the
    copy ends, and 2000 ms later the button shows what it showed at the
    click. *)
Lemma click_acknowledged k st c b o :
  pres st !! k = Some (Pre (Some c) (Some b)) →
  clipboard_api st = true → timers st = [] →
  ∃ st', onClick k st = Js.Normal st' ∧
    icon k (settle o st') = Some CHECK ∧
    timers (settle o st') = [Timer (now st + 2000) k (innerHTML b)] ∧
    icon k (advance (now st + 2000) (settle o st')) = Some (innerHTML b).
Proof.
  intros Hk Hapi Htm. unfold onClick, copyToClipboard. rewrite Hk, Hapi. simpl.
  eexists. split; [reflexivity|]. rewrite Htm. simpl.
  unfold settle. simpl.
  destruct (pending st) as [|t0 rest]; simpl;
    destruct o as [|copies]; simpl; unfold icon; simpl.
  all: split; [by rewrite list_lookup_alter_eq, Hk|].
  all: split; [done|].
  all: unfold advance; simpl.
  all: rewrite (filter_cons_True (λ tm : timer, (due tm ≤ now st + 2000)%N))
         by (simpl; lia).
  all: rewrite filter_nil; simpl.
  all: by rewrite !list_lookup_alter_eq, Hk.
Qed.

(** C3: the click handler of the button of a block without a [<code>]
    element raises a [TypeError]; nothing in the handler catches it. *)
Theorem click_without_code_raises :
  (∀ st k b,
     pres st !! k = Some (Pre None (Some b)) →
     onClick k st = Js.Throw (Js.TypeError "pre.querySelector(...) is null")) ∧
  onClick 0 (init without_code)
  = Js.Throw (Js.TypeError "pre.querySelector(...) is null").
Proof. split; [intros st k b; apply onClick_no_code|done]. Qed.

(** C6: three clicks that are not acknowledged as described.
    Where [navigator.clipboard] is undefined the copy fails by raising, and
    the handler stops before it reaches the button: no check mark, no
    timer.  The same on a block without a [<code>] element.  And on a block
    with one, a second click 1000 ms after the first finds the check mark as
    the content to restore: 2000 ms after the second click the button is
    set to the check mark, no timer is left, and the clipboard glyph does
    not come back. *)
Theorem click_acknowledgment_lost :
  (onClick 0 (init without_clipboard)
   = Js.Throw (Js.TypeError "navigator.clipboard is undefined") ∧
   icon 0 (click 0 (init without_clipboard)) = Some CLIPBOARD ∧
   timers (click 0 (init without_clipboard)) = []) ∧
  (icon 0 (click 0 (init without_code)) = Some CLIPBOARD ∧
   timers (click 0 (init without_code)) = []) ∧
  (let st1 := settle Fulfilled (click 0 (init with_code)) in
   let st2 := settle Fulfilled (click 0 (advance 1000 st1)) in
   icon 0 st1 = Some CHECK ∧
   icon 0 (advance 2000 st2) = Some CLIPBOARD ∧
   icon 0 (advance 3000 st2) = Some CHECK ∧
   timers (advance 3000 st2) = []).
Proof. vm_compute. repeat split. Qed.

End CodeBlockCopyFacts.

(** ** ThemeManager: what holds along every run *)
Module ThemeManagerLaws.
Import ThemeManager ThemeManagerFacts.

Lemma dispatch_synced st e :
  (∃ t, synced t st) → ∃ t, synced t (dispatch st e).
Proof.
  intros [t Ht]. destruct e as [|m]; simpl.
  - destruct (toggle_el st); [|by eauto].
    destruct (toggleTheme_synced st) as (u & _ & Hu). eauto.
  - unfold onSchemeChange, getSavedTheme. simpl.
    destruct (Js.truthy (stored_theme st)); simpl.
    + by exists t.
    + eexists. apply setTheme_synced.
Qed.

Lemma run_synced es st : (∃ t, synced t st) → ∃ t, synced t (run st es).
Proof.
  revert st. induction es as [|e es IH]; intros st Hst; [done|].
  rewrite run_cons. by apply IH, dispatch_synced.
Qed.

(** Whatever was stored and whatever happens, after construction the
    document attribute, the stored theme and the icon (when there is one)
    agree: the icon is the sun for dark and the moon for anything else. *)
Theorem attribute_storage_icon_agree st es :
  ∃ t, data_theme (run (construct st) es) = Some t ∧
       stored_theme (run (construct st) es) = Some t ∧
       (themeIcon (run (construct st) es) = None ∨
        themeIcon (run (construct st) es)
        = Some (if bool_decide (t = "dark") then SUN else MOON)).
Proof.
  destruct (run_synced es (construct st)) as [t Ht].
  { eexists. apply construct_synced. }
  exists t. exact Ht.
Qed.

Lemma opposite_valid t : opposite t = "light" ∨ opposite t = "dark".
Proof. unfold opposite. case_bool_decide; auto. Qed.

Lemma opposite_opposite t :
  t = "light" ∨ t = "dark" → opposite (opposite t) = t.
Proof. by intros [-> | ->]. Qed.

Lemma toggleTheme_opposite st t :
  t = "light" ∨ t = "dark" → data_theme st = Some t →
  toggleTheme st = setTheme (opposite t) st.
Proof.
  intros Ht Ha. rewrite toggleTheme_setTheme, Ha.
  by destruct Ht as [-> | ->].
Qed.

Lemma setTheme_toggle_el_is_Some t st :
  is_Some (toggle_el (setTheme t st)) ↔ is_Some (toggle_el st).
Proof.
  unfold setTheme, updateIcon. simpl.
  destruct (toggle_el st) as [[x|]|]; simpl; split; intros H; try done;
    by eexists.
Qed.

(** With the toggle on the page and a light or dark theme, [n] clicks leave
    the theme where it was when [n] is even and at the other theme when [n]
    is odd. *)
Theorem clicks_alternate n st t :
  is_Some (toggle_el st) →
  t = "light" ∨ t = "dark" →
  data_theme st = Some t →
  data_theme (run st (replicate n ToggleClick))
  = Some (if Nat.even n then t else opposite t).
Proof.
  revert st t. induction n as [|n IH]; intros st t Htg Ht Ha; [done|].
  change (replicate (S n) ToggleClick) with (ToggleClick :: replicate n ToggleClick).
  rewrite run_cons. cbn [dispatch]. destruct (toggle_el st) as [tg|] eqn:Hel.
  2: { by destruct Htg. }
  rewrite (toggleTheme_opposite st t) by done.
  rewrite (IH _ (opposite t)).
  - rewrite opposite_opposite by done.
    rewrite Nat.even_succ, <- Nat.negb_even. by destruct (Nat.even n).
  - apply setTheme_toggle_el_is_Some. rewrite Hel. by eexists.
  - apply opposite_valid.
  - apply setTheme_data_theme.
Qed.

(** Three clicks on a freshly constructed light page end in dark. *)
Lemma clicks_alternate_witness :
  data_theme (run (construct (first_visit (Some None) false))
                  (replicate 3 ToggleClick)) = Some "dark".
Proof.
  apply (clicks_alternate 3 (construct (first_visit (Some None) false)) "light").
  - by eexists.
  - by left.
  - reflexivity.
Defined.

Lemma construct_stored a s tg dark :
  s ≠ "" → data_theme (construct (Page a (Some s) tg dark)) = Some s.
Proof.
  intros Hs. unfold construct. rewrite loadTheme_setTheme, setTheme_data_theme.
  unfold getSavedTheme. simpl. by rewrite bool_decide_eq_false_2.
Qed.

(** What [loadTheme] resolves to: a stored theme that is not the empty
    string wins over the system preference, whatever it is; with nothing
    stored, or the empty string, the system preference is applied. *)
Theorem load_resolution st :
  (∀ s, stored_theme st = Some s → s ≠ "" →
        data_theme (construct st) = Some s) ∧
  (stored_theme st = None ∨ stored_theme st = Some "" →
   data_theme (construct st) = Some (scheme (prefers_dark st))).
Proof.
  unfold construct. rewrite loadTheme_setTheme, setTheme_data_theme.
  unfold getSavedTheme, getSystemPreference. split.
  - intros s -> Hs. by rewrite JsFacts.or_else_nonempty.
  - by intros [-> | ->].
Qed.

(** A stored dark theme under a light system; an empty stored theme. *)
Lemma load_resolution_witness :
  data_theme (construct (Page None (Some "dark") None false)) = Some "dark" ∧
  data_theme (construct (Page None (Some "") None true)) = Some "dark".
Proof.
  split.
  - by apply (proj1 (load_resolution (Page None (Some "dark") None false))).
  - apply (proj2 (load_resolution (Page None (Some "") None true))). by right.
Defined.

(** A click on the toggle is a choice that stays: no later change of the
    system scheme alters the theme or what is stored, and a reload, under
    whatever system scheme and markup, applies the chosen theme again. *)
Theorem toggle_choice_sticks st ms a dark :
  is_Some (toggle_el st) →
  data_theme (run (dispatch st ToggleClick) (SchemeChange <$> ms))
  = data_theme (dispatch st ToggleClick) ∧
  stored_theme (run (dispatch st ToggleClick) (SchemeChange <$> ms))
  = data_theme (dispatch st ToggleClick) ∧
  data_theme (reload a dark
                (run (dispatch st ToggleClick) (SchemeChange <$> ms)))
  = data_theme (dispatch st ToggleClick).
Proof.
  intros [tg Htg]. simpl. rewrite Htg.
  destruct (toggleTheme_synced st) as (t & Ht & Ha & Hs & _).
  assert (t ≠ "") as Hne by (by destruct Ht as [-> | ->]).
  destruct (scheme_changes_keep (toggleTheme st) ms) as (Ha' & Hs' & _).
  { rewrite Hs. by apply JsFacts.truthy_Some. }
  rewrite Ha', Hs', Hs, Ha. repeat split.
  unfold reload. rewrite Hs', Hs. by apply construct_stored.
Qed.

(** A click on a first visit under a light system, two changes of the
    system scheme, and a reload under a dark system: the page stays dark. *)
Lemma toggle_choice_sticks_witness :
  data_theme
    (reload None true
       (run (dispatch (construct (first_visit (Some (Some "")) false))
                      ToggleClick)
            (SchemeChange <$> [true; false])))
  = Some "dark".
Proof.
  refine (proj2 (proj2 (toggle_choice_sticks
    (construct (first_visit (Some (Some "")) false)) [true; false] None true
    _))).
  by eexists.
Defined.

Lemma dispatch_light_or_dark st e :
  (∃ t, (t = "light" ∨ t = "dark") ∧ synced t st) →
  ∃ t, (t = "light" ∨ t = "dark") ∧ synced t (dispatch st e).
Proof.
  intros (t & Ht & Hsync). destruct e as [|m]; simpl.
  - destruct (toggle_el st); [apply toggleTheme_synced|by eauto].
  - unfold onSchemeChange, getSavedTheme. simpl.
    destruct (Js.truthy (stored_theme st)); simpl.
    + by exists t.
    + exists (scheme m). split; [destruct m; auto|apply setTheme_synced].
Qed.

(** When the storage holds nothing, the empty string, light or dark at load
    time, the theme of the document is light or dark after construction and
    after every sequence of clicks and system scheme changes. *)
Theorem theme_light_or_dark st es :
  stored_theme st = None ∨ stored_theme st = Some "" ∨
  stored_theme st = Some "light" ∨ stored_theme st = Some "dark" →
  data_theme (run (construct st) es) = Some "light" ∨
  data_theme (run (construct st) es) = Some "dark".
Proof.
  intros Hst.
  assert (∃ t, (t = "light" ∨ t = "dark") ∧ synced t (construct st)) as Hinit.
  { eexists. split; [|apply construct_synced].
    destruct Hst as [-> | [-> | [-> | ->]]]; simpl; auto;
      destruct (prefers_dark st); auto. }
  clear Hst. revert Hinit. generalize (construct st). clear st.
  induction es as [|e es IH]; intros st Hst.
  - destruct Hst as (t & [-> | ->] & Ha & _); auto.
  - rewrite run_cons. by apply IH, dispatch_light_or_dark.
Qed.

(** A first visit under a dark system, then a click and a scheme change. *)
Lemma theme_light_or_dark_witness :
  data_theme (run (construct (first_visit (Some None) true))
                  [ToggleClick; SchemeChange false]) = Some "light" ∨
  data_theme (run (construct (first_visit (Some None) true))
                  [ToggleClick; SchemeChange false]) = Some "dark".
Proof.
  apply (theme_light_or_dark (first_visit (Some None) true)
           [ToggleClick; SchemeChange false]).
  by left.
Defined.

End ThemeManagerLaws.

(** ** ReadingProgress: the clamp *)
Module ReadingProgressLaws.
Import ReadingProgress ReadingProgressFacts.

(** *** Comparisons of binary64 numbers *)

Lemma SFcompare_antisym x y : SFcompare y x = CompOpp <$> SFcompare x y.
Proof.
  destruct x as [[]|[]| |[] mx ex], y as [[]|[]| |[] my ey]; simpl; try done.
  - rewrite (Z.compare_antisym ex ey).
    destruct (ex ?= ey)%Z; simpl; try done.
    by rewrite (Pos.compare_cont_antisym mx my Eq).
  - rewrite (Z.compare_antisym ex ey).
    destruct (ex ?= ey)%Z; simpl; try done.
    by rewrite (Pos.compare_cont_antisym mx my Eq).
Qed.

Lemma is_nan_spec x : is_nan x = true ↔ Prim2SF x = S754_nan.
Proof.
  unfold is_nan. rewrite FloatAxioms.eqb_spec. unfold SFeqb.
  destruct (Prim2SF x) as [s|s| |s m e]; simpl.
  - done.
  - by destruct s.
  - done.
  - rewrite Z.compare_refl, Pos.compare_cont_refl. by destruct s.
Qed.

Lemma SFcompare_is_Some x y :
  is_nan x = false → is_nan y = false →
  is_Some (SFcompare (Prim2SF x) (Prim2SF y)).
Proof.
  intros Hx Hy.
  assert (Prim2SF x ≠ S754_nan) as Hx'.
  { intros H. apply is_nan_spec in H. congruence. }
  assert (Prim2SF y ≠ S754_nan) as Hy'.
  { intros H. apply is_nan_spec in H. congruence. }
  destruct (Prim2SF x) as [[]|[]| |[] mx ex],
    (Prim2SF y) as [[]|[]| |[] my ey]; simpl; try done; by eexists.
Qed.

Lemma leb_not_nan x y :
  (x <=? y)%float = true → is_nan x = false ∧ is_nan y = false.
Proof.
  rewrite leb_spec. unfold SFleb. intros H.
  split; apply not_true_is_false; intros Hn; apply is_nan_spec in Hn;
    rewrite Hn in H; simpl in H; [done|].
  by destruct (Prim2SF x).
Qed.

Lemma ltb_not_nan x y :
  (x <? y)%float = true → is_nan x = false ∧ is_nan y = false.
Proof. intros H. by apply leb_not_nan, ltb_leb. Qed.

Lemma leb_not_ltb x y : (x <=? y)%float = true → (y <? x)%float = false.
Proof.
  rewrite leb_spec, ltb_spec. unfold SFleb, SFltb.
  rewrite (SFcompare_antisym (Prim2SF x) (Prim2SF y)).
  by destruct (SFcompare _ _) as [[]|].
Qed.

Lemma not_ltb_leb x y :
  is_nan x = false → is_nan y = false →
  (x <? y)%float = false → (y <=? x)%float = true.
Proof.
  intros Hx Hy. destruct (SFcompare_is_Some x y Hx Hy) as [c Hc].
  rewrite leb_spec, ltb_spec. unfold SFleb, SFltb.
  rewrite (SFcompare_antisym (Prim2SF x) (Prim2SF y)), Hc.
  by destruct c.
Qed.

(** *** [Math.max(0, x)] and [Math.min(100, y)] on numbers *)

Lemma Math_max_0_num x :
  is_nan x = false → Math_max 0 x = if (0 <? x)%float then x else 0%float.
Proof.
  intros Hx. unfold Math_max. rewrite Hx. change (is_nan 0) with false. simpl.
  change (max_step neg_infinity 0) with 0%float.
  unfold max_step. change (is_neg_zero 0) with false.
  by rewrite andb_false_r.
Qed.

Lemma Math_min_100_num y :
  is_nan y = false →
  Math_min 100 y = if (y <? 100)%float then y else 100%float.
Proof.
  intros Hy. unfold Math_min. rewrite Hy. change (is_nan 100) with false. simpl.
  change (min_step infinity 100) with 100%float.
  unfold min_step. change (is_pos_zero 100) with false.
  by rewrite andb_false_r.
Qed.

Lemma above_100_positive q :
  (100 <=? q)%float = true → (0 <? q)%float = true.
Proof.
  rewrite leb_spec, ltb_spec.
  let v := eval vm_compute in (Prim2SF 100) in change (Prim2SF 100) with v.
  let v := eval vm_compute in (Prim2SF 0) in change (Prim2SF 0) with v.
  unfold SFleb, SFltb.
  by destruct (Prim2SF q) as [[]|[]| |[] m e].
Qed.

(** What the clamp of lines 104-106 returns, by the place of the quotient:
    0 when the quotient is at most 0 (also for [-0] and [-Infinity]), the
    quotient itself strictly between 0 and 100, and 100 when it is at least
    100 (also for [+Infinity]). *)
Theorem scrollPercent_clamps h t s w :
  let q := ((s - t + w) / h * 100)%float in
  ((q <=? 0)%float = true → scrollPercent h t s w = 0%float) ∧
  ((0 <? q)%float = true → (q <? 100)%float = true →
   scrollPercent h t s w = q) ∧
  ((100 <=? q)%float = true → scrollPercent h t s w = 100%float).
Proof.
  simpl. unfold scrollPercent.
  set (q := ((s - t + w) / h * 100)%float). repeat split.
  - intros Hq. destruct (leb_not_nan _ _ Hq) as [Hn _].
    by rewrite (Math_max_0_num q Hn), (leb_not_ltb _ _ Hq).
  - intros H0 H100. destruct (ltb_not_nan _ _ H100) as [Hn _].
    rewrite (Math_max_0_num q Hn), H0.
    by rewrite (Math_min_100_num q Hn), H100.
  - intros Hq. destruct (leb_not_nan _ _ Hq) as [_ Hn].
    rewrite (Math_max_0_num q Hn), (above_100_positive q Hq).
    by rewrite (Math_min_100_num q Hn), (leb_not_ltb _ _ Hq).
Qed.

(** Content of height 500 at the top of the page under a window of height
    800: the bar is full; content of height 2000: the bar is at 40. *)
Lemma scrollPercent_clamps_witness :
  scrollPercent 500 0 0 800 = 100%float ∧
  scrollPercent 2000 0 0 800 = 40%float.
Proof.
  split.
  - by apply (proj2 (proj2 (scrollPercent_clamps 500 0 0 800))).
  - by apply (proj1 (proj2 (scrollPercent_clamps 2000 0 0 800))).
Defined.

(** *** The order of binary64 numbers is transitive *)

Ltac compare_cases :=
  repeat match goal with
  | H : context [(?a ?= ?b)%Z] |- _ =>
      destruct (Z.compare_spec a b); simpl in H
  | |- context [(?a ?= ?b)%Z] => destruct (Z.compare_spec a b); simpl
  | H : context [Pos.compare_cont Eq ?a ?b] |- _ =>
      change (Pos.compare_cont Eq a b) with (a ?= b)%positive in H;
      destruct (Pos.compare_spec a b); simpl in H
  | |- context [Pos.compare_cont Eq ?a ?b] =>
      change (Pos.compare_cont Eq a b) with (a ?= b)%positive;
      destruct (Pos.compare_spec a b); simpl
  end.

Lemma SFleb_trans x y z :
  SFleb x y = true → SFleb y z = true → SFleb x z = true.
Proof.
  unfold SFleb.
  destruct x as [[]|[]| |[] mx ex], y as [[]|[]| |[] my ey],
    z as [[]|[]| |[] mz ez]; simpl; try done.
  all: intros H1 H2; compare_cases; try done; try lia.
Qed.

Lemma SFleb_ltb_trans x y z :
  SFleb x y = true → SFltb y z = true → SFltb x z = true.
Proof.
  unfold SFleb, SFltb.
  destruct x as [[]|[]| |[] mx ex], y as [[]|[]| |[] my ey],
    z as [[]|[]| |[] mz ez]; simpl; try done.
  all: intros H1 H2; compare_cases; try done; try lia.
Qed.

Lemma SFltb_leb_trans x y z :
  SFltb x y = true → SFleb y z = true → SFltb x z = true.
Proof.
  unfold SFleb, SFltb.
  destruct x as [[]|[]| |[] mx ex], y as [[]|[]| |[] my ey],
    z as [[]|[]| |[] mz ez]; simpl; try done.
  all: intros H1 H2; compare_cases; try done; try lia.
Qed.

Lemma leb_trans x y z :
  (x <=? y)%float = true → (y <=? z)%float = true → (x <=? z)%float = true.
Proof. rewrite !leb_spec. apply SFleb_trans. Qed.

Lemma leb_ltb_trans x y z :
  (x <=? y)%float = true → (y <? z)%float = true → (x <? z)%float = true.
Proof. rewrite leb_spec, !ltb_spec. apply SFleb_ltb_trans. Qed.

Lemma ltb_leb_trans x y z :
  (x <? y)%float = true → (y <=? z)%float = true → (x <? z)%float = true.
Proof. rewrite leb_spec, !ltb_spec. apply SFltb_leb_trans. Qed.

(** The three places of a number with respect to the clamp. *)
Lemma clamp_cases q :
  is_nan q = false →
  (q <=? 0)%float = true ∧ Math_min 100 (Math_max 0 q) = 0%float ∨
  ((0 <? q)%float = true ∧ (q <? 100)%float = true) ∧
    Math_min 100 (Math_max 0 q) = q ∨
  (100 <=? q)%float = true ∧ Math_min 100 (Math_max 0 q) = 100%float.
Proof.
  intros Hn. rewrite (Math_max_0_num q Hn).
  destruct (0 <? q)%float eqn:H0.
  - rewrite (Math_min_100_num q Hn).
    destruct (q <? 100)%float eqn:H100; [by right; left|].
    right; right. split; [|done]. by apply not_ltb_leb.
  - left. split; [|done]. by apply not_ltb_leb.
Qed.

(** The clamp preserves order: for one geometry and two scroll offsets whose
    quotients are ordered, the percentages are ordered the same way. *)
Theorem scrollPercent_ordered_as_quotient h t w s1 s2 :
  ((s1 - t + w) / h * 100 <=? (s2 - t + w) / h * 100)%float = true →
  (scrollPercent h t s1 w <=? scrollPercent h t s2 w)%float = true.
Proof.
  unfold scrollPercent.
  set (q1 := ((s1 - t + w) / h * 100)%float).
  set (q2 := ((s2 - t + w) / h * 100)%float). intros Hq.
  destruct (leb_not_nan _ _ Hq) as [Hn1 Hn2].
  destruct (clamp_cases q1 Hn1) as [[H1 ->]|[[[H1 H1'] ->]|[H1 ->]]],
    (clamp_cases q2 Hn2) as [[H2 ->]|[[[H2 H2'] ->]|[H2 ->]]].
  - done.
  - by apply ltb_leb.
  - done.
  - by pose proof (ltb_leb_trans _ _ _ H1 (leb_trans _ _ _ Hq H2)).
  - done.
  - by apply ltb_leb.
  - by pose proof (leb_trans _ _ _ H1 (leb_trans _ _ _ Hq H2)).
  - by pose proof (leb_ltb_trans _ _ _ H1 (leb_ltb_trans _ _ _ Hq H2')).
  - done.
Qed.

(** Content of height 2000 at the top, a window of height 800: scrolled by
    100 the bar is not shorter than unscrolled. *)
Lemma scrollPercent_ordered_as_quotient_witness :
  (scrollPercent 2000 0 0 800 <=? scrollPercent 2000 0 100 800)%float = true.
Proof. by apply (scrollPercent_ordered_as_quotient 2000 0 800 0 100). Defined.

(** *** The scroll listener along a visit *)

Lemma scrolls_snoc bar ls l :
  scrolls bar (ls ++ [l]) = onScroll l (scrolls bar ls).
Proof. unfold scrolls. by rewrite foldl_app. Qed.

Lemma scrolls_is_Some bar ls : is_Some (scrolls (Some bar) ls).
Proof.
  induction ls as [|l ls IH] using rev_ind; [by eexists|].
  rewrite scrolls_snoc. destruct IH as [b ->]. simpl.
  destruct (post_content l) as [[? ?]|]; by eexists.
Qed.



(** *** Content of height zero *)

Lemma div_by_zero a :
  ((a <? 0)%float = true → (a / 0)%float = neg_infinity) ∧
  ((0 <? a)%float = true → (a / 0)%float = infinity) ∧
  ((a =? 0)%float = true ∨ is_nan a = true → (a / 0)%float = nan).
Proof.
  rewrite <- (SF2Prim_Prim2SF (a / 0)), div_spec.
  rewrite !ltb_spec, FloatAxioms.eqb_spec, is_nan_spec.
  let v := eval vm_compute in (Prim2SF 0) in change (Prim2SF 0) with v.
  unfold SFltb, SFeqb.
  destruct (Prim2SF a) as [[]|[]| |[] m e]; simpl; repeat split;
    try done; by intros [?|?].
Qed.

(** With an empty content region ([offsetHeight] 0) the bar is empty while
    the lower edge of the viewport is above the region, full once it is
    below, and its width is [NaN] exactly at the region (or when the sum
    itself is [NaN]): no value in between occurs. *)
Theorem scrollPercent_zero_height t s w :
  ((s - t + w <? 0)%float = true → scrollPercent 0 t s w = 0%float) ∧
  ((0 <? s - t + w)%float = true → scrollPercent 0 t s w = 100%float) ∧
  ((s - t + w =? 0)%float = true ∨ is_nan (s - t + w) = true →
   scrollPercent 0 t s w = nan).
Proof.
  unfold scrollPercent.
  destruct (div_by_zero (s - t + w)) as (Hneg & Hpos & Hnan).
  repeat split; intros H.
  - by rewrite (Hneg H).
  - by rewrite (Hpos H).
  - by rewrite (Hnan H).
Qed.

(** An empty region at 1000 under a window of 800: scrolled by 150 the bar
    is empty, scrolled by 250 it is full. *)
Lemma scrollPercent_zero_height_witness :
  scrollPercent 0 1000 150 800 = 0%float ∧
  scrollPercent 0 1000 250 800 = 100%float.
Proof.
  split.
  - by apply (proj1 (scrollPercent_zero_height 1000 150 800)).
  - by apply (proj1 (proj2 (scrollPercent_zero_height 1000 250 800))).
Defined.

End ReadingProgressLaws.

(** ** LazyLoader: observation and loading along a visit *)
Module LazyLoaderLaws.
Import LazyLoader LazyLoaderFacts.

(** *** [init] with the intersection facility *)

Lemma fold_observe ks st :
  images (foldl (λ s k, observe k s) st ks) = images st ∧
  history (foldl (λ s k, observe k s) st ks) = history st ∧
  observer (foldl (λ s k, observe k s) st ks)
  = (λ obs, obs ∪ list_to_set ks) <$> observer st.
Proof.
  revert st. induction ks as [|k ks IH]; intros st.
  - simpl. split; [done|split; [done|]].
    destruct (observer st) as [obs|]; simpl; [|done].
    by rewrite (right_id_L ∅ (∪)).
  - simpl. destruct (IH (observe k st)) as (-> & -> & ->).
    split; [done|split; [done|]]. unfold observe. simpl.
    destruct (observer st) as [obs|]; simpl; [|done].
    by rewrite (assoc_L (∪)).
Qed.

Lemma init_defers_aux doc :
  observer (init true doc) = Some (list_to_set (marked doc)) ∧
  images (init true doc) = doc ∧
  history (init true doc) = [].
Proof.
  unfold init, observeImages. cbn [images].
  destruct (fold_observe (marked doc) (Loader doc (Some ∅) []))
    as (-> & -> & ->).
  split; [|done]. simpl. by rewrite (left_id_L ∅ (∪)).
Qed.

(** With the intersection facility [init] defers everything: it observes
    exactly the images that carry [data-src], changes no image and calls
    [loadImage] on none. *)
Theorem init_defers doc :
  (∀ k, k ∈ marked doc ↔
        ∃ i, doc !! k = Some i ∧ is_Some (getAttribute "data-src" i)) ∧
  observer (init true doc) = Some (list_to_set (marked doc)) ∧
  images (init true doc) = doc ∧
  history (init true doc) = [].
Proof. split; [intros k; apply elem_of_marked|apply init_defers_aux]. Qed.

(** *** What [loadImage] leaves alone *)

(** [loadImage] touches [src], [data-src] and [onload] only: every other
    attribute and the inline style are as before. *)
Theorem loadImage_frame i name :
  name ≠ "src" → name ≠ "data-src" →
  getAttribute name (loadImage i) = getAttribute name i ∧
  style_opacity (loadImage i) = style_opacity i ∧
  style_filter (loadImage i) = style_filter i.
Proof.
  intros Hsrc Hdata. unfold loadImage.
  destruct (deferred i) as [v|]; [|done]. unfold getAttribute. simpl.
  by rewrite lookup_delete_ne, lookup_insert_ne.
Qed.

(** The [alt] text and the opacity of the sample image survive. *)
Lemma loadImage_frame_witness :
  getAttribute "alt" (loadImage x_png) = Some "x" ∧
  style_opacity (loadImage x_png) = Some "0".
Proof.
  destruct (loadImage_frame x_png "alt") as (Halt & Hop & _); [done|done|].
  split; [exact Halt|exact Hop].
Defined.

(** When the browser has loaded an image that [loadImage] took from
    [data-src], its handler makes it opaque and removes the blur, and
    touches no attribute; an image [loadImage] never changed has no handler,
    and its [load] event changes nothing. *)
Theorem load_event_clears_blur i :
  (∀ v, getAttribute "data-src" i = Some v → v ≠ "" →
        style_opacity (fire_load (loadImage i)) = Some "1" ∧
        style_filter (fire_load (loadImage i)) = Some "blur(0px)" ∧
        attrs (fire_load (loadImage i)) = attrs (loadImage i)) ∧
  (onload i = None → fire_load i = i ∧
   (deferred i = None → fire_load (loadImage i) = i)).
Proof.
  split.
  - intros v Hv Hne. assert (deferred i = Some v) as Hd by by apply deferred_Some.
    unfold loadImage. by rewrite Hd.
  - intros Hon. unfold fire_load. rewrite Hon. split; [done|].
    intros Hd. rewrite (loadImage_not_deferred i Hd). by rewrite Hon.
Qed.

(** The sample image, blurred and transparent until it has loaded. *)
Lemma load_event_clears_blur_witness :
  style_opacity (fire_load (loadImage x_png)) = Some "1" ∧
  style_filter (fire_load (loadImage x_png)) = Some "blur(0px)".
Proof.
  destruct (proj1 (load_event_clears_blur x_png) "x.png") as (Hop & Hf & _);
    [done|done|].
  split; [exact Hop|exact Hf].
Defined.

(** *** Notifications *)

Lemma step_quiet st e : isIntersecting e = false → step st e = st.
Proof. unfold step. by intros ->. Qed.

(** A notification without an intersecting entry changes nothing: no image
    is loaded and none is unobserved. *)
Theorem notify_quiet st batch :
  (∀ e, e ∈ batch → isIntersecting e = false) → notify st batch = st.
Proof.
  intros Hq. unfold notify. destruct (observer st) as [obs|]; [|done].
  assert (∀ e, e ∈ filter (λ e, target e ∈ obs) batch →
               isIntersecting e = false) as Hq'.
  { intros e [_ He]%list_elem_of_filter. by apply Hq. }
  revert Hq'. generalize (filter (λ e, target e ∈ obs) batch). clear Hq.
  intros es. induction es as [|e es IH]; intros Hes; [done|].
  rewrite callback_cons, step_quiet.
  - apply IH. intros e' He'. apply Hes, elem_of_cons. by right.
  - apply Hes, elem_of_cons. by left.
Qed.

(** Neither image of the sample page intersects yet. *)
Lemma notify_quiet_witness :
  notify (init true two_images) [Entry 0 false; Entry 1 false]
  = init true two_images.
Proof.
  apply notify_quiet. intros e He.
  apply elem_of_cons in He as [->|He]; [done|].
  apply elem_of_cons in He as [->|He]; [done|].
  by apply elem_of_nil in He.
Defined.

Lemma images_step k st e :
  images (step st e) !! k =
  (if decide (e = Entry k true) then loadImage else id) <$> images st !! k.
Proof.
  unfold step. destruct e as [j [|]]; simpl.
  - change (images (unobserve j (loadImageAt j st)))
      with (alter loadImage j (images st)).
    destruct (decide (j = k)) as [->|Hjk].
    + rewrite list_lookup_alter_eq. by rewrite decide_True.
    + rewrite list_lookup_alter_ne by done.
      rewrite decide_False by congruence. by destruct (images st !! k).
  - rewrite decide_False by congruence. by destruct (images st !! k).
Qed.

Lemma images_callback k es st :
  images (callback es st) !! k =
  (if decide (Entry k true ∈ es) then loadImage else id) <$> images st !! k.
Proof.
  revert st. induction es as [|e es IH]; intros st.
  - destruct (decide (Entry k true ∈ [])) as [Hin|_];
      [by apply elem_of_nil in Hin|].
    change (callback [] st) with st. by destruct (images st !! k).
  - rewrite callback_cons, IH, images_step.
    destruct (images st !! k) as [i|]; simpl; [|done]. f_equal.
    destruct (decide (e = Entry k true)) as [->|He].
    + rewrite (decide_True (P := Entry k true ∈ Entry k true :: es))
        by (apply elem_of_cons; by left).
      case_decide; simpl; [apply loadImage_idem|done].
    + destruct (decide (Entry k true ∈ es)) as [Hin|Hnin].
      * rewrite decide_True; [done|]. apply elem_of_cons. by right.
      * rewrite decide_False; [done|].
        rewrite elem_of_cons. intros [?|?]; [congruence|done].
Qed.

(** An observed image that a notification reports as intersecting comes out
    of it as [loadImage] leaves it, however often the notification mentions
    it; with a value in [data-src], that value is then its [src]. *)
Theorem intersecting_image_is_loaded st obs batch k i :
  observer st = Some obs → k ∈ obs → Entry k true ∈ batch →
  images st !! k = Some i →
  images (notify st batch) !! k = Some (loadImage i) ∧
  (∀ v, getAttribute "data-src" i = Some v → v ≠ "" →
        (images (notify st batch) !! k) ≫= getAttribute "src" = Some v).
Proof.
  intros Hobs Hk Hin Hi.
  assert (images (notify st batch) !! k = Some (loadImage i)) as Himg.
  { unfold notify. rewrite Hobs, images_callback, Hi.
    rewrite decide_True; [done|]. apply list_elem_of_filter. by split. }
  split; [done|]. intros v Hv Hne. rewrite Himg. simpl.
  by apply loadImage_src, deferred_Some.
Qed.

(** The second image of the sample page intersects, twice in one batch. *)
Lemma intersecting_image_is_loaded_witness :
  (images (notify (init true two_images) [Entry 1 true; Entry 1 true]) !! 1)
    ≫= getAttribute "src" = Some "b.png".
Proof.
  refine (proj2 (intersecting_image_is_loaded (init true two_images) {[0; 1]}
                   [Entry 1 true; Entry 1 true] 1
                   (Img {[ "data-src" := "b.png" ]} None None None)
                   _ _ _ _) "b.png" _ _).
  - vm_compute. reflexivity.
  - set_solver.
  - apply elem_of_cons. by left.
  - reflexivity.
  - reflexivity.
  - done.
Defined.

(** *** The page along a visit *)

Lemma tracks_step doc st e : tracks doc st → tracks doc (step st e).
Proof.
  intros [Himg Hobs]. unfold step. destruct (isIntersecting e); [|done].
  set (j := target e). split.
  - intros k.
    change (images (unobserve j (loadImageAt j st)))
      with (alter loadImage j (images st)).
    change (invocations k (unobserve j (loadImageAt j st)))
      with (invocations k (loadImageAt j st)).
    rewrite invocations_loadImageAt.
    destruct (decide (k = j)) as [->|Hkj].
    + rewrite list_lookup_alter_eq, Himg.
      rewrite (decide_True (P := (0 < invocations j st + 1)%nat)) by lia.
      destruct (doc !! j) as [i|]; simpl; [|done]. f_equal.
      case_decide; simpl; [apply loadImage_idem|done].
    + rewrite list_lookup_alter_ne by done. rewrite Himg, Nat.add_0_r. done.
  - intros obs k Hst Hk. unfold unobserve in Hst. simpl in Hst.
    destruct (observer st) as [obs0|] eqn:Hobs0; [|done].
    injection Hst as <-. apply elem_of_difference in Hk as [Hk Hne].
    change (invocations k (unobserve j (loadImageAt j st)))
      with (invocations k (loadImageAt j st)).
    rewrite invocations_loadImageAt.
    destruct (Hobs obs0 k eq_refl Hk) as [Hm ->]. split; [done|].
    rewrite decide_False; [done|]. intros ->. apply Hne.
    by apply elem_of_singleton.
Qed.

Lemma tracks_callback doc es st : tracks doc st → tracks doc (callback es st).
Proof.
  revert st. induction es as [|e es IH]; intros st Hst; [done|].
  rewrite callback_cons. by apply IH, tracks_step.
Qed.

Lemma tracks_run doc batches st : tracks doc st → tracks doc (run st batches).
Proof.
  unfold run. revert st.
  induction batches as [|b bs IH]; intros st Hst; [done|].
  simpl. apply IH. unfold notify.
  destruct (observer st); [by apply tracks_callback|done].
Qed.

Lemma tracks_init doc : tracks doc (init true doc).
Proof.
  destruct (init_defers_aux doc) as (Hobs & Himg & Hhist). split.
  - intros k. unfold invocations. rewrite Himg, Hhist. simpl.
    by destruct (doc !! k).
  - intros obs k Hst Hk. unfold invocations. rewrite Hhist. split; [|done].
    rewrite Hobs in Hst. injection Hst as <-.
    by apply elem_of_list_to_set in Hk.
Qed.

(** Along a visit with the intersection facility every image is exactly
    what it was in the document until [loadImage] is invoked on it, and
    exactly what [loadImage] makes of the original from then on. *)
Theorem image_along_visit doc batches k i :
  doc !! k = Some i →
  images (run (init true doc) batches) !! k =
  Some (if decide (0 < invocations k (run (init true doc) batches))%nat
        then loadImage i else i).
Proof.
  intros Hk.
  destruct (tracks_run doc batches _ (tracks_init doc)) as [Himg _].
  rewrite Himg, Hk. simpl. by case_decide.
Qed.

(** The first image of the sample page after the second one intersected. *)
Lemma image_along_visit_witness :
  images (run (init true two_images) [[Entry 1 true]]) !! 0
  = Some (Img {[ "data-src" := "a.png" ]} None None None).
Proof.
  by apply (image_along_visit two_images [[Entry 1 true]] 0
              (Img {[ "data-src" := "a.png" ]} None None None)).
Defined.

(** An image that is still observed carries [data-src] in the document, was
    never passed to [loadImage], and is as the document has it: the widget
    observes nothing it did not find marked and re-observes nothing. *)
Theorem observed_image_is_pending doc batches obs k :
  observer (run (init true doc) batches) = Some obs → k ∈ obs →
  k ∈ marked doc ∧
  invocations k (run (init true doc) batches) = 0%nat ∧
  images (run (init true doc) batches) !! k = doc !! k.
Proof.
  intros Hobs Hk.
  destruct (tracks_run doc batches _ (tracks_init doc)) as [Himg Hpend].
  destruct (Hpend obs k Hobs Hk) as [Hm H0].
  split; [done|split; [done|]]. rewrite Himg, H0. simpl.
  by destruct (doc !! k).
Qed.

(** On the sample page the first image is still pending after the second
    one intersected. *)
Lemma observed_image_is_pending_witness :
  0 ∈ marked two_images ∧
  invocations 0 (run (init true two_images) [[Entry 1 true]]) = 0%nat.
Proof.
  destruct (observed_image_is_pending two_images [[Entry 1 true]] {[0]} 0)
    as (Hm & H0 & _).
  - vm_compute. reflexivity.
  - by apply elem_of_singleton.
  - split; [exact Hm|exact H0].
Defined.

(** *** Without the intersection facility *)

Lemma NoDup_marked doc : NoDup (marked doc).
Proof. unfold marked. apply NoDup_filter, NoDup_seq. Qed.

Lemma invocations_fold_loadImageAt k ks st :
  NoDup ks →
  invocations k (foldl (λ s j, loadImageAt j s) st ks) =
  (invocations k st + (if decide (k ∈ ks) then 1 else 0))%nat.
Proof.
  revert st. induction ks as [|j ks IH]; intros st Hnd.
  - destruct (decide (k ∈ [])) as [Hin|_]; [by apply elem_of_nil in Hin|].
    simpl. lia.
  - apply NoDup_cons in Hnd as [Hj Hnd].
    change (foldl (λ s j, loadImageAt j s) st (j :: ks))
      with (foldl (λ s j, loadImageAt j s) (loadImageAt j st) ks).
    rewrite IH, invocations_loadImageAt by done.
    destruct (decide (k = j)) as [->|Hkj].
    + rewrite (decide_False (P := j ∈ ks)) by done.
      rewrite decide_True; [lia|]. apply elem_of_cons. by left.
    + destruct (decide (k ∈ ks)) as [Hin|Hnin].
      * rewrite decide_True; [lia|]. apply elem_of_cons. by right.
      * rewrite decide_False; [lia|].
        rewrite elem_of_cons. intros [?|?]; done.
Qed.

(** Without the intersection facility [init] invokes [loadImage] exactly
    once on every image that carries [data-src] and on no other, and sets up
    no observer. *)
Theorem fallback_loads_each_once doc k :
  invocations k (init false doc) = (if decide (k ∈ marked doc) then 1 else 0)%nat ∧
  observer (init false doc) = None.
Proof.
  unfold init, loadAllImages. cbn [images]. split.
  - by rewrite invocations_fold_loadImageAt by apply NoDup_marked.
  - assert (∀ ks st, observer (foldl (λ s j, loadImageAt j s) st ks)
                     = observer st) as Hfold.
    { induction ks as [|j ks IH]; intros st; [done|]. simpl. by rewrite IH. }
    by rewrite Hfold.
Qed.

End LazyLoaderLaws.

(** ** CodeBlockCopy: buttons, clicks and the clipboard *)
Module CodeBlockCopyLaws.
Import CodeBlockCopy CodeBlockCopyFacts.

(** *** Buttons and hovering *)

Lemma pres_set_button k f st j :
  pres (set_button k f st) !! j =
  (if decide (j = k)
   then λ p, Pre (code_text p) (f <$> copy_button p) else id)
    <$> pres st !! j.
Proof.
  unfold set_button, with_pres. simpl.
  destruct (decide (j = k)) as [->|Hjk].
  - by rewrite list_lookup_alter_eq.
  - rewrite list_lookup_alter_ne by done. by destruct (pres st !! j).
Qed.

Lemma page_eq st st' :
  pres st = pres st' → timers st = timers st' → now st = now st' →
  clipboard_api st = clipboard_api st' → clipboard st = clipboard st' →
  pending st = pending st' → console st = console st' → st = st'.
Proof. destruct st, st'. simpl. by intros -> -> -> -> -> -> ->. Qed.

(** After [init] every block has a button that shows the clipboard glyph
    and is transparent; entering a block with the mouse makes its button
    opaque and changes nothing else, no icon and no other block; and leaving
    it again puts the page back as [init] left it. *)
Theorem hover_reveals_button st k :
  (∀ j, is_Some (pres st !! j) →
        icon j (init st) = Some CLIPBOARD ∧
        button_opacity j (init st) = Some "0" ∧
        button_opacity j (onMouseEnter k (init st))
        = Some (if decide (j = k) then "1" else "0")) ∧
  (∀ j, icon j (onMouseEnter k (init st)) = icon j (init st)) ∧
  onMouseLeave k (onMouseEnter k (init st)) = init st.
Proof.
  split; [|split].
  - intros j [p Hp]. unfold icon, button_opacity, onMouseEnter.
    rewrite pres_set_button. unfold init, with_pres. simpl.
    rewrite list_lookup_fmap, Hp. simpl. repeat split.
    by destruct (decide (j = k)).
  - intros j. unfold icon, onMouseEnter. rewrite pres_set_button.
    destruct (pres (init st) !! j) as [[c [b|]]|]; simpl;
      by destruct (decide (j = k)).
  - apply page_eq; try done. apply list_eq. intros j.
    unfold onMouseLeave, onMouseEnter. rewrite !pres_set_button.
    unfold init, with_pres. simpl. rewrite list_lookup_fmap.
    destruct (pres st !! j) as [p|]; simpl; [|done].
    by destruct (decide (j = k)).
Qed.

(** The sample page: the button appears when the mouse enters the block. *)
Lemma hover_reveals_button_witness :
  button_opacity 0 (init with_code) = Some "0" ∧
  button_opacity 0 (onMouseEnter 0 (init with_code)) = Some "1".
Proof.
  destruct (proj1 (hover_reveals_button with_code 0) 0) as (_ & H0 & H1).
  - by eexists.
  - split; [exact H0|exact H1].
Defined.

(** *** When the click handler raises *)

Lemma onClick_Normal k st c b :
  pres st !! k = Some (Pre (Some c) (Some b)) → clipboard_api st = true →
  onClick k st =
  Js.Normal
    (Page (alter (λ p, Pre (code_text p)
                           ((λ b, Button CHECK (opacity b)) <$> copy_button p))
                 k (pres st))
          (timers st ++ [Timer (now st + 2000) k (innerHTML b)])
          (now st) true (clipboard st) (pending st ++ [c]) (console st)).
Proof.
  intros Hk Hapi. unfold onClick, copyToClipboard. rewrite Hk, Hapi. reflexivity.
Qed.

(** The click handler of a block with a button raises exactly when the
    block has no [<code>] element or [navigator.clipboard] is undefined; a
    block without a button has no handler, and nothing happens. *)
Theorem onClick_raises_iff st k :
  (∀ c b, pres st !! k = Some (Pre c (Some b)) →
          ((∃ e, onClick k st = Js.Throw e) ↔
           c = None ∨ clipboard_api st = false)) ∧
  (pres st !! k ≫= copy_button = None → onClick k st = Js.Normal st).
Proof.
  split.
  - intros c b Hk. split.
    + intros [e He]. destruct c as [c|]; [|by left].
      destruct (clipboard_api st) eqn:Hapi; [|by right].
      by rewrite (onClick_Normal k st c b) in He.
    + intros [-> | Hapi].
      * eexists. by apply onClick_no_code with (b := b).
      * destruct c as [c|].
        -- eexists. by apply onClick_no_clipboard with (c := c) (b := b).
        -- eexists. by apply onClick_no_code with (b := b).
  - unfold onClick. by destruct (pres st !! k) as [[c [b|]]|].
Qed.

(** The sample block without code raises. *)
Lemma onClick_raises_iff_witness :
  ∃ e, onClick 0 (init without_code) = Js.Throw e.
Proof.
  apply (proj2 (proj1 (onClick_raises_iff (init without_code) 0)
                  None (Button CLIPBOARD "0") eq_refl)).
  by left.
Defined.

(** *** What a click leaves alone *)

Lemma pres_click k st :
  pres (click k st) = pres st ∨
  pres (click k st) =
  alter (λ p, Pre (code_text p)
                  ((λ b, Button CHECK (opacity b)) <$> copy_button p))
        k (pres st).
Proof.
  unfold click, onClick.
  destruct (pres st !! k) as [[[c|] [b|]]|]; simpl; auto.
  unfold copyToClipboard. destruct (clipboard_api st); simpl; auto.
Qed.

(** A click on the button of block [k] changes no other block, loses no
    block, and leaves the code of block [k] as it is. *)
Theorem click_frame k st :
  (∀ j, j ≠ k → pres (click k st) !! j = pres st !! j) ∧
  length (pres (click k st)) = length (pres st) ∧
  code_text <$> pres (click k st) = code_text <$> pres st.
Proof.
  destruct (pres_click k st) as [-> | ->]; [done|]. split; [|split].
  - intros j Hj. by apply list_lookup_alter_ne.
  - apply length_alter.
  - apply list_eq. intros j. rewrite !list_lookup_fmap.
    destruct (decide (j = k)) as [->|Hjk].
    + rewrite list_lookup_alter_eq. by destruct (pres st !! k).
    + by rewrite list_lookup_alter_ne.
Qed.

(** *** The acknowledgment and the clipboard *)

(** A click on a block with a [<code>] element, with [navigator.clipboard]
    defined and no timer pending, is acknowledged for exactly 2000 ms,
    however the copy ends: until then the button shows the check mark, from
    then on what it showed at the click. *)
Theorem acknowledgment_window k st c b o t :
  pres st !! k = Some (Pre (Some c) (Some b)) →
  clipboard_api st = true → timers st = [] →
  icon k (advance t (settle o (click k st)))
  = Some (if decide (now st + 2000 ≤ t)%N then innerHTML b else CHECK).
Proof.
  intros Hk Hapi Htm. unfold click.
  rewrite (onClick_Normal k st c b Hk Hapi), Htm. simpl.
  assert (∀ cb pd cs,
    icon k (advance t
      (Page (alter (λ p, Pre (code_text p)
                             ((λ b, Button CHECK (opacity b)) <$> copy_button p))
                   k (pres st))
            [Timer (now st + 2000) k (innerHTML b)] (now st) true cb pd cs))
    = Some (if decide (now st + 2000 ≤ t)%N then innerHTML b else CHECK))
    as Hadv.
  { intros cb pd cs. unfold advance. simpl.
    destruct (decide (now st + 2000 ≤ t)%N) as [Hle|Hgt].
    - rewrite (filter_cons_True (λ tm : timer, (due tm ≤ t)%N)) by done.
      rewrite filter_nil. simpl. unfold icon. simpl.
      by rewrite !list_lookup_alter_eq, Hk.
    - rewrite (filter_cons_False (λ tm : timer, (due tm ≤ t)%N)) by done.
      rewrite filter_nil. simpl. unfold icon. simpl.
      by rewrite list_lookup_alter_eq, Hk. }
  unfold settle. simpl.
  destruct (pending st) as [|t0 rest]; simpl; destruct o as [|copies];
    apply Hadv.
Qed.

(** The sample block: check mark after 1999 ms, clipboard glyph after
    2000 ms, with a copy that fails altogether. *)
Lemma acknowledgment_window_witness :
  icon 0 (advance 1999 (settle (Rejected false) (click 0 (init with_code))))
  = Some CHECK ∧
  icon 0 (advance 2000 (settle (Rejected false) (click 0 (init with_code))))
  = Some CLIPBOARD.
Proof.
  split.
  - by apply (acknowledgment_window 0 (init with_code) "let x = 1;"
                (Button CLIPBOARD "0") (Rejected false) 1999).
  - by apply (acknowledgment_window 0 (init with_code) "let x = 1;"
                (Button CLIPBOARD "0") (Rejected false) 2000).
Defined.

(** With no other copy in flight, the clipboard holds the text of the
    [<code>] element, as it is, once the promise is fulfilled or the
    fallback copies; when both fail the clipboard keeps what it held.  A
    rejection is logged once, a fulfilment is not. *)
Theorem copy_lands_in_clipboard k st c b o :
  pres st !! k = Some (Pre (Some c) (Some b)) →
  clipboard_api st = true → pending st = [] →
  clipboard (settle o (click k st))
  = match o with
    | Fulfilled | Rejected true => Some c
    | Rejected false => clipboard st
    end ∧
  pending (settle o (click k st)) = [] ∧
  console (settle o (click k st))
  = (console st
     ++ match o with Fulfilled => [] | Rejected _ => ["复制失败:"] end)%list.
Proof.
  intros Hk Hapi Hpd. unfold click.
  rewrite (onClick_Normal k st c b Hk Hapi), Hpd. unfold settle. simpl.
  destruct o as [|[|]]; simpl; repeat split. by rewrite app_nil_r.
Qed.

(** The sample block copied by the fallback. *)
Lemma copy_lands_in_clipboard_witness :
  clipboard (settle (Rejected true) (click 0 (init with_code)))
  = Some "let x = 1;".
Proof.
  by apply (copy_lands_in_clipboard 0 (init with_code) "let x = 1;"
              (Button CLIPBOARD "0") (Rejected true)).
Defined.

End CodeBlockCopyLaws.
